(** * xmlbuilder: a streaming XML builder, embedded and verified

    The repository holds several historical variants of one Go type,
    [Builder].  Two of them are embedded here, each in a module of its own:

    - [Ordered]: the order-preserving variant (attribute names kept in the
      slice [attrnames], inline regions counted by the integer [inline],
      methods [Inline], [EndInline], [Flush], [Empty]);
    - [Classic]: the variant of [builder.go] (attributes kept in a Go map
      only, [inline] and [pretty] booleans, method [Pretty]).

    Go strings are byte sequences, modelled by [string]; the sink
    ([io.Writer], a [bytes.Buffer] in the tests) is the string of everything
    written so far (the source discards the error of every write, and the
    sink of the model never fails); Go's [int] is a 64-bit integer,
    modelled by [Z] with the wrap-around written out; a run-time panic is
    an outcome of its own, which keeps the state of the builder at that
    moment. *)

From Stdlib Require Import ZArith Lia Ascii.
From stdpp Require Import base list strings gmap pretty.

Local Open Scope Z_scope.
#[local] Set Warnings "-clear-no-such-hyp".

(** ** Go's [int] *)

Definition maxInt : Z := 2 ^ 63 - 1.
Definition minInt : Z := - 2 ^ 63.

(** Two's complement wrap-around of a 64-bit signed integer. *)
Definition wrap (z : Z) : Z := (z + 2 ^ 63) `mod` 2 ^ 64 - 2 ^ 63.

(** [len(s)] of a string, and of a slice. *)
Definition len (s : string) : Z := Z.of_nat (String.length s).
Definition len_slice {A} (l : list A) : Z := Z.of_nat (length l).

(** ** Strings *)

(** [count] copies of [s], one after the other. *)
Fixpoint repeat_string (s : string) (count : nat) : string :=
  match count with
  | O => ""
  | S n => s +:+ repeat_string s n
  end.

(** The double quote, as a byte and as a one-byte string. *)
Definition dquote : ascii := "034"%char.
Definition quote : string := String dquote EmptyString.

(** The line feed. *)
Definition nl : string := String "010"%char EmptyString.

(** A [strings.Replacer] all of whose old strings are single bytes replaces
    byte by byte. *)
Fixpoint replace_bytes (f : ascii → string) (s : string) : string :=
  match s with
  | EmptyString => ""
  | String c rest => f c +:+ replace_bytes f rest
  end.

Definition htmlEscaper_byte (c : ascii) : string :=
  if Ascii.eqb c "&"%char then "&amp;"
  else if Ascii.eqb c "<"%char then "&lt;"
  else if Ascii.eqb c ">"%char then "&gt;"
  else String c "".

Definition attrEscaper_byte (c : ascii) : string :=
  if Ascii.eqb c "&"%char then "&amp;"
  else if Ascii.eqb c "<"%char then "&lt;"
  else if Ascii.eqb c ">"%char then "&gt;"
  else if Ascii.eqb c dquote then "&#34;"
  else String c "".

Definition htmlEscaper : string → string := replace_bytes htmlEscaper_byte.
Definition attrEscaper : string → string := replace_bytes attrEscaper_byte.

(** Whether the byte [c] occurs in [str]. *)
Fixpoint occurs (c : ascii) (str : string) : bool :=
  match str with
  | EmptyString => false
  | String d rest => Ascii.eqb d c || occurs c rest
  end.

(** Text with none of the three bytes [htmlEscaper] rewrites. *)
Definition clean (str : string) : bool :=
  negb (occurs "&" str) && negb (occurs "<" str) && negb (occurs ">" str).

(** ** Arguments of type [interface{}] *)

(** The dynamic values the callers of the builder pass: strings, integers,
    booleans, and the sentinel [Blank] of the order-preserving variant. *)
Inductive value : Type :=
  | VString (s : string)
  | VInt (n : Z)
  | VBool (b : bool)
  | VBlank.

Global Instance value_eq_dec : EqDecision value.
Proof. solve_decision. Defined.

(** The default format [%v] of one operand; [Blank] has a [String] method
    that returns the empty string. *)
Definition format (v : value) : string :=
  match v with
  | VString s => s
  | VInt n => pretty n
  | VBool true => "true"
  | VBool false => "false"
  | VBlank => ""
  end.

Definition is_string (v : value) : bool :=
  match v with VString _ => true | _ => false end.

(** [fmt.Sprint]: "Spaces are added between operands when neither is a
    string." *)
Fixpoint Sprint (vs : list value) : string :=
  match vs with
  | [] => ""
  | v :: rest =>
      format v +:+
      match rest with
      | [] => ""
      | w :: _ => if is_string v || is_string w then "" else " "
      end +:+ Sprint rest
  end.

(** The helper [s] of the source is [fmt.Sprint]. *)
Definition s (vs : list value) : string := Sprint vs.

(** ** Outcomes and the builder monad *)

(** A method either returns, or panics; the builder is a heap object, so
    its state at the moment of the panic is part of the outcome. *)
Inductive result (St A : Type) : Type :=
  | Ok (a : A) (st : St)
  | Panic (msg : string) (st : St).
Arguments Ok {St A} a st.
Arguments Panic {St A} msg st.

Definition M (St A : Type) : Type := St → result St A.

Definition ret {St A} (a : A) : M St A := λ st, Ok a st.

Definition bind {St A B} (m : M St A) (k : A → M St B) : M St B :=
  λ st, match m st with
        | Ok a st' => k a st'
        | Panic msg st' => Panic msg st'
        end.

Definition get {St} : M St St := λ st, Ok st st.
Definition modify {St} (f : St → St) : M St unit := λ st, Ok tt (f st).
Definition panic {St A} (msg : string) : M St A := λ st, Panic msg st.

Declare Scope go_scope.
Delimit Scope go_scope with go.
Notation "'do' x <- c ; k" := (bind c (λ x, k))
  (at level 10, x name, c at level 100, k at level 200) : go_scope.
Notation "c ;; k" := (bind c (λ _, k))
  (at level 100, k at level 200, right associativity) : go_scope.

(** The state an outcome ends in, and whether the call returned. *)
Definition state_of {St A} (r : result St A) : St :=
  match r with Ok _ st => st | Panic _ st => st end.

Definition returned {St A} (r : result St A) : bool :=
  match r with Ok _ _ => true | Panic _ _ => false end.

Definition msg_index : string := "runtime error: index out of range".
Definition msg_repeat : string := "strings: negative Repeat count".
Definition msg_overflow : string := "strings: Repeat output length overflow".

(** [strings.Repeat]: it panics if count is negative or if the result of
    (len(s) * count) overflows. *)
Definition Repeat {St} (str : string) (count : Z) : M St string :=
  if bool_decide (count < 0) then panic msg_repeat
  else if bool_decide (maxInt < len str * count) then panic msg_overflow
  else ret (repeat_string str (Z.to_nat count)).

(** [es[len(es)-1]] and [es[:len(es)-1]] of a slice. *)
Definition index_last {St} (es : list string) : M St string :=
  match last es with
  | Some e => ret e
  | None => panic msg_index
  end.

Definition slice_init {St} (es : list string) : M St (list string) :=
  match es with
  | [] => panic "runtime error: slice bounds out of range"
  | _ => ret (take (length es - 1)%nat es)
  end.

(** * The order-preserving variant *)

Module Ordered.

Local Open Scope go_scope.

Record Builder : Type := mkBuilder {
  writer : string;                       (* everything written to the sink *)
  buildingElement : bool;
  attributes : gmap string string;
  attrnames : list string;
  elements : list string;                (* innermost element last *)
  indentString : string;
  indent : string;
  offset : Z;                            (* indent offset *)
  empty : bool;                          (* use empty elements *)
  inline : Z
}.

Definition set_writer (x : string) (b : Builder) : Builder :=
  mkBuilder x (buildingElement b) (attributes b) (attrnames b) (elements b)
            (indentString b) (indent b) (offset b) (empty b) (inline b).
Definition set_buildingElement (x : bool) (b : Builder) : Builder :=
  mkBuilder (writer b) x (attributes b) (attrnames b) (elements b)
            (indentString b) (indent b) (offset b) (empty b) (inline b).
Definition set_attributes (x : gmap string string) (b : Builder) : Builder :=
  mkBuilder (writer b) (buildingElement b) x (attrnames b) (elements b)
            (indentString b) (indent b) (offset b) (empty b) (inline b).
Definition set_attrnames (x : list string) (b : Builder) : Builder :=
  mkBuilder (writer b) (buildingElement b) (attributes b) x (elements b)
            (indentString b) (indent b) (offset b) (empty b) (inline b).
Definition set_elements (x : list string) (b : Builder) : Builder :=
  mkBuilder (writer b) (buildingElement b) (attributes b) (attrnames b) x
            (indentString b) (indent b) (offset b) (empty b) (inline b).
Definition set_indentString (x : string) (b : Builder) : Builder :=
  mkBuilder (writer b) (buildingElement b) (attributes b) (attrnames b) (elements b)
            x (indent b) (offset b) (empty b) (inline b).
Definition set_indent (x : string) (b : Builder) : Builder :=
  mkBuilder (writer b) (buildingElement b) (attributes b) (attrnames b) (elements b)
            (indentString b) x (offset b) (empty b) (inline b).
Definition set_offset (x : Z) (b : Builder) : Builder :=
  mkBuilder (writer b) (buildingElement b) (attributes b) (attrnames b) (elements b)
            (indentString b) (indent b) x (empty b) (inline b).
Definition set_empty (x : bool) (b : Builder) : Builder :=
  mkBuilder (writer b) (buildingElement b) (attributes b) (attrnames b) (elements b)
            (indentString b) (indent b) (offset b) x (inline b).
Definition set_inline (x : Z) (b : Builder) : Builder :=
  mkBuilder (writer b) (buildingElement b) (attributes b) (attrnames b) (elements b)
            (indentString b) (indent b) (offset b) (empty b) x.

Abbreviation Go := (M Builder).

(** [fmt.Fprint(b.writer, ...)] and [b.writer.Write]: append to the sink. *)
Definition write (out : string) : Go unit :=
  modify (λ b, set_writer (writer b +:+ out) b).

(** [New]: the sink starts empty here; the two-space indent and the empty
    element style are the defaults. *)
Definition New : Builder :=
  mkBuilder "" false ∅ [] [] "" "  " 0 true 0.

(** [indentValue] of [doIndent]. *)
Definition indentValue (b : Builder) : Z :=
  wrap (wrap (len_slice (elements b) + offset b) - 1).

Definition doIndent : Go string :=
  do b <- get;
  if bool_decide (len (indentString b) ≠ wrap (len (indent b) * indentValue b))
  then do r <- Repeat (indent b) (indentValue b);
       modify (set_indentString r);;
       ret r
  else ret (indentString b).

(** One attribute of a start tag, as [outputElement] writes it. *)
Definition render_attr (key value : string) : string :=
  " " +:+ key +:+ "=" +:+ quote +:+ attrEscaper value +:+ quote.

(** The loop of [outputElement] over [attrnames]; a key that is missing in
    the map reads as the empty string. *)
Fixpoint render_attrs (attrs : gmap string string) (names : list string) : string :=
  match names with
  | [] => ""
  | key :: rest =>
      render_attr key (default "" (attrs !! key)) +:+ render_attrs attrs rest
  end.

Definition outputElement (close : bool) : Go unit :=
  do b <- get;
  if buildingElement b then
    do ind <- (if bool_decide (inline b = 0) then doIndent else ret "");
    do name <- index_last (elements b);
    let buf := ind +:+ "<" +:+ name +:+ render_attrs (attributes b) (attrnames b) in
    modify (set_attributes ∅);;
    modify (set_attrnames []);;
    do buf <- (if close then
                 do es <- slice_init (elements b);
                 modify (set_elements es);;
                 ret (buf +:+ (if empty b then " />" else ">"))
               else ret (buf +:+ ">"));
    let buf := buf +:+ (if bool_decide (inline b = 0) then nl else "") in
    write buf;;
    modify (set_buildingElement false)
  else ret tt.

(** [Flush] will generate the current element that is being built. *)
Definition Flush : Go unit := outputElement false.

Definition Inline : Go unit :=
  do b <- get;
  (if bool_decide (inline b = 0) then
     Flush;;
     modify (λ b, set_offset (wrap (offset b + 1)) b);;
     do ind <- doIndent;
     write ind;;
     modify (λ b, set_offset (wrap (offset b - 1)) b)
   else ret tt);;
  modify (λ b, set_inline (wrap (inline b + 1)) b).

Definition EndInline : Go unit :=
  modify (λ b, set_inline (wrap (inline b - 1)) b);;
  do b <- get;
  if bool_decide (inline b = 0) then write nl else ret tt.

Definition Attr (name : string) (v : value) : Go unit :=
  do b <- get;
  (if bool_decide (is_Some (attributes b !! name)) then ret tt
   else modify (λ b, set_attrnames (attrnames b ++ [name]) b));;
  modify (λ b, set_attributes (<[name := s [v]]> (attributes b)) b).

Definition Chars (chars : list value) : Go unit :=
  outputElement false;;
  let line := Sprint chars in
  do b <- get;
  if bool_decide (0 < inline b) then write (htmlEscaper line)
  else do ind <- doIndent;
       do b <- get;
       write (ind +:+ indent b +:+ htmlEscaper line +:+ nl).

Definition CharsNoEscape (chars : list value) : Go unit :=
  outputElement false;;
  let line := Sprint chars in
  do b <- get;
  if bool_decide (0 < inline b) then write line
  else do ind <- doIndent;
       do b <- get;
       write (ind +:+ indent b +:+ line +:+ nl).

Definition Cdata (data : list value) : Go unit :=
  outputElement false;;
  let line := Sprint data in
  do b <- get;
  if bool_decide (0 < inline b) then write ("<![CDATA[" +:+ line +:+ "]]>")
  else do ind <- doIndent;
       do b <- get;
       write (ind +:+ indent b +:+ "<![CDATA[" +:+ line +:+ "]]>" +:+ nl).

(** The test of [Element] on one key/value pair. *)
Definition keeps (k v : value) : bool :=
  bool_decide (s [k] ≠ "") && (bool_decide (s [v] ≠ "") || bool_decide (v = VBlank)).

(** The loop [for i := first; i < len(args); i += 2] over the arguments
    from [first] on. *)
Fixpoint attr_loop (args : list value) : Go unit :=
  match args with
  | [] => ret tt
  | [_] => panic msg_index
  | k :: v :: rest =>
      (if keeps k v then Attr (s [k]) (VString (s [v])) else ret tt);;
      attr_loop rest
  end.

Definition first_of (args : list value) : nat := (length args `mod` 2)%nat.

Definition open_element (element : string) (args : list value) : Go unit :=
  do b <- get;
  (if buildingElement b then outputElement false else ret tt);;
  modify (set_buildingElement true);;
  modify (λ b, set_elements (elements b ++ [element]) b);;
  attr_loop (drop (first_of args) args).

Definition arg0 (args : list value) : Go value :=
  match args with
  | v :: _ => ret v
  | [] => panic msg_index
  end.

Definition Element (element : string) (args : list value) : Go unit :=
  open_element element args;;
  if bool_decide (first_of args ≠ 0%nat)
  then do v <- arg0 args; Chars [v]
  else ret tt.

Definition ElementNoEscape (element : string) (args : list value) : Go unit :=
  open_element element args;;
  if bool_decide (first_of args ≠ 0%nat)
  then do v <- arg0 args; CharsNoEscape [v]
  else ret tt.

Definition End : Go unit :=
  do b <- get;
  if buildingElement b then outputElement true
  else
    (if bool_decide (0 < inline b) then
       do name <- index_last (elements b);
       write ("</" +:+ name +:+ ">")
     else
       do ind <- doIndent;
       do name <- index_last (elements b);
       write (ind +:+ "</" +:+ name +:+ ">" +:+ nl));;
    do b <- get;
    do es <- slice_init (elements b);
    modify (set_elements es).

Definition Tag (element : string) (args : list value) : Go unit :=
  Inline;;
  Element element args;;
  End;;
  EndInline.

Definition TagNoEscape (element : string) (args : list value) : Go unit :=
  Inline;;
  ElementNoEscape element args;;
  End;;
  EndInline.

(** The loop of [Instruct]: one [Fprint] per pair. *)
Fixpoint instruct_loop (args : list value) : Go unit :=
  match args with
  | [] => ret tt
  | [_] => panic msg_index
  | k :: v :: rest =>
      write (" " +:+ format k +:+ "=" +:+ quote +:+ attrEscaper (s [v]) +:+ quote);;
      instruct_loop rest
  end.

Definition Instruct (name : string) (args : list value) : Go unit :=
  write ("<?" +:+ name);;
  instruct_loop args;;
  write ("?>" +:+ nl).

Definition InstructXML : Go unit :=
  Instruct "xml" [VString "version"; VString "1.0"; VString "encoding"; VString "UTF-8"].

Definition Doctype (doctype : string) : Go unit :=
  write ("<!DOCTYPE " +:+ doctype +:+ ">" +:+ nl).

(** [Offset] will add the delta value to the given indent offset. *)
Definition Offset (delta : Z) : Go unit :=
  modify (λ b, set_offset (wrap (offset b + delta)) b).

Definition Indent (indent : string) : Go unit := modify (set_indent indent).

Definition Empty (useEmpty : bool) : Go unit := modify (set_empty useEmpty).

(** *** What [doIndent] yields *)

(** The string [doIndent] returns when it does not panic: the cached
    [indentString] when its length is the expected one, a fresh repetition
    of the indent unit otherwise. *)
Definition indentation (b : Builder) : string :=
  if bool_decide (len (indentString b) ≠ wrap (len (indent b) * indentValue b))
  then repeat_string (indent b) (Z.to_nat (indentValue b))
  else indentString b.

(** The repeat count is not negative and the repetition fits an [int]. *)
Definition can_indent (b : Builder) : Prop :=
  0 ≤ indentValue b ∧ len (indent b) * indentValue b ≤ maxInt.

(** The cached [indentString] is a repetition of the current indent unit
    (it always is when [Indent] is only called before any output). *)
Definition cache_coherent (b : Builder) : Prop :=
  ∃ n : nat, indentString b = repeat_string (indent b) n.

(** A builder whose offset is not negative and whose sizes are far from the
    limits of [int]. *)
Definition sane (b : Builder) : Prop :=
  0 ≤ offset b ≤ 2 ^ 31 ∧ len_slice (elements b) < 2 ^ 31 ∧ len (indent b) < 2 ^ 31.

(** The bytes [outputElement] writes for the pending element [name]: the
    start tag with its attributes, closed at once when [close] is set. *)
Definition start_tag (b : Builder) (name : string) (close : bool) : string :=
  (if bool_decide (inline b = 0) then indentation b else "") +:+
  "<" +:+ name +:+ render_attrs (attributes b) (attrnames b) +:+
  (if close then (if empty b then " />" else ">") else ">") +:+
  (if bool_decide (inline b = 0) then nl else "").

(** *** Attribute bindings *)

(** The rule for attribute order, on a sequence of bindings (name, value):
    first occurrence wins position, last occurrence wins value. *)

(** The names, each once, in the order of their first occurrence. *)
Fixpoint first_seen (names : list string) : list string :=
  match names with
  | [] => []
  | n :: rest => n :: filter (λ m, m ≠ n) (first_seen rest)
  end.

(** The value of the last binding of [name], if there is one. *)
Fixpoint last_value (name : string) (bs : list (string * string)) : option string :=
  match bs with
  | [] => None
  | (n, v) :: rest =>
      match last_value name rest with
      | Some w => Some w
      | None => if decide (n = name) then Some v else None
      end
  end.

Definition merged (bs : list (string * string)) : list (string * string) :=
  (λ n, (n, default "" (last_value n bs))) <$> first_seen bs.*1.

Fixpoint render_pairs (l : list (string * string)) : string :=
  match l with
  | [] => ""
  | (key, value) :: rest => render_attr key value +:+ render_pairs rest
  end.

(** The key/value arguments of [Element], as the caller lists them. *)
Fixpoint flat_pairs (pairs : list (value * value)) : list value :=
  match pairs with
  | [] => []
  | (k, v) :: rest => k :: v :: flat_pairs rest
  end.

(** The bindings [Element] makes of its pairs: those [keeps] lets through. *)
Fixpoint effective (pairs : list (value * value)) : list (string * string) :=
  match pairs with
  | [] => []
  | (k, v) :: rest =>
      (if keeps k v then [(s [k], s [v])] else []) ++ effective rest
  end.

(** All the pairs of [Element], kept or not. *)
Definition supplied (pairs : list (value * value)) : list (string * string) :=
  (λ p, (s [p.1], s [p.2])) <$> pairs.

(** The bindings a sequence of [Attr] calls makes: all of them. *)
Definition bindings (calls : list (string * value)) : list (string * string) :=
  (λ c, (c.1, s [c.2])) <$> calls.

Fixpoint attr_calls (calls : list (string * value)) : Go unit :=
  match calls with
  | [] => ret tt
  | (name, v) :: rest => Attr name v;; attr_calls rest
  end.

(** The buffer of pending attributes holds the bindings [bs]. *)
Definition buffer_of (bs : list (string * string)) (b : Builder) : Prop :=
  attrnames b = first_seen bs.*1 ∧ ∀ n, attributes b !! n = last_value n bs.

(** *** Call sequences *)

(** The exported methods, as data; a caller is a sequence of calls. *)
Inductive call : Type :=
  | CInline
  | CEndInline
  | CElement (element : string) (args : list value)
  | CElementNoEscape (element : string) (args : list value)
  | CAttr (name : string) (v : value)
  | CEnd
  | CTag (element : string) (args : list value)
  | CTagNoEscape (element : string) (args : list value)
  | CInstruct (name : string) (args : list value)
  | CInstructXML
  | CDoctype (doctype : string)
  | COffset (delta : Z)
  | CChars (chars : list value)
  | CCharsNoEscape (chars : list value)
  | CCdata (data : list value)
  | CIndent (indent : string)
  | CEmpty (useEmpty : bool)
  | CFlush.

Definition exec (c : call) : Go unit :=
  match c with
  | CInline => Inline
  | CEndInline => EndInline
  | CElement element args => Element element args
  | CElementNoEscape element args => ElementNoEscape element args
  | CAttr name v => Attr name v
  | CEnd => End
  | CTag element args => Tag element args
  | CTagNoEscape element args => TagNoEscape element args
  | CInstruct name args => Instruct name args
  | CInstructXML => InstructXML
  | CDoctype doctype => Doctype doctype
  | COffset delta => Offset delta
  | CChars chars => Chars chars
  | CCharsNoEscape chars => CharsNoEscape chars
  | CCdata data => Cdata data
  | CIndent indent => Indent indent
  | CEmpty useEmpty => Empty useEmpty
  | CFlush => Flush
  end.

Fixpoint run (cs : list call) : Go unit :=
  match cs with
  | [] => ret tt
  | c :: rest => exec c;; run rest
  end.

(** A call that is neither a bare [Inline] nor a bare [EndInline]: it
    emits content or changes the configuration, and leaves the inline depth
    as it found it. *)
Definition content_call (c : call) : bool :=
  match c with
  | CInline | CEndInline => false
  | _ => true
  end.

(** *** One inline level more *)

(** The builder [b] one inline level deeper, and an outcome with its final
    state transformed. *)
Definition up (b : Builder) : Builder := set_inline (inline b + 1) b.

Definition rmap {A} (f : Builder → Builder) (r : result Builder A)
  : result Builder A :=
  match r with
  | Ok a b => Ok a (f b)
  | Panic msg b => Panic msg (f b)
  end.

Definition lifts {A} (m : Go A) : Prop :=
  ∀ b, 1 ≤ inline b →
       m (up b) = rmap up (m b) ∧
       ∀ a b', m b = Ok a b' → inline b' = inline b.

(** The same, for a builder at least two levels below the largest [int]. *)
Definition lifts_below {A} (m : Go A) : Prop :=
  ∀ b, 1 ≤ inline b → inline b + 2 ≤ maxInt →
       m (up b) = rmap up (m b) ∧
       ∀ a b', m b = Ok a b' → inline b' = inline b.

(** A method that returns leaves the inline depth as it found it. *)
Definition keeps_inline {A} (m : Go A) : Prop :=
  ∀ b a b', m b = Ok a b' → inline b' = inline b.

(** *** Further notions *)


(** The invariant of the builder: a pending element is on the stack, and
    [attrnames] lists the keys of [attributes], each once. *)
Definition well_formed (b : Builder) : Prop :=
  (buildingElement b = true → elements b ≠ []) ∧
  NoDup (attrnames b) ∧
  (∀ n, n ∈ attrnames b ↔ is_Some (attributes b !! n)).

(** When [m] returns, the builder has the property [Q]. *)
Definition ensures {A} (Q : Builder → Prop) (m : Go A) : Prop :=
  ∀ b a b', m b = Ok a b' → Q b'.

(** [m] keeps the property [P] of the builder, whether it returns or
    panics. *)
Definition preserves {A} (P : Builder → Prop) (m : Go A) : Prop :=
  ∀ b, P b → P (state_of (m b)).

(** The composite of the specification: enter an inline region, call
    [Element], call [End], leave the inline region. *)
Definition Tag_spec (element : string) (args : list value) : Go unit :=
  run [CInline; CElement element args; CEnd; CEndInline].

End Ordered.

(** * The variant of builder.go *)

Module Classic.

Local Open Scope go_scope.

Record Builder : Type := mkBuilder {
  writer : string;                       (* everything written to the sink *)
  buildingElement : bool;
  attributes : gmap string string;
  elements : list string;                (* innermost element last *)
  indentString : string;
  indent : string;
  offset : Z;                            (* indent offset *)
  inline : bool;
  pretty : bool
}.

Definition set_writer (x : string) (b : Builder) : Builder :=
  mkBuilder x (buildingElement b) (attributes b) (elements b)
            (indentString b) (indent b) (offset b) (inline b) (pretty b).
Definition set_buildingElement (x : bool) (b : Builder) : Builder :=
  mkBuilder (writer b) x (attributes b) (elements b)
            (indentString b) (indent b) (offset b) (inline b) (pretty b).
Definition set_attributes (x : gmap string string) (b : Builder) : Builder :=
  mkBuilder (writer b) (buildingElement b) x (elements b)
            (indentString b) (indent b) (offset b) (inline b) (pretty b).
Definition set_elements (x : list string) (b : Builder) : Builder :=
  mkBuilder (writer b) (buildingElement b) (attributes b) x
            (indentString b) (indent b) (offset b) (inline b) (pretty b).
Definition set_indentString (x : string) (b : Builder) : Builder :=
  mkBuilder (writer b) (buildingElement b) (attributes b) (elements b)
            x (indent b) (offset b) (inline b) (pretty b).
Definition set_indent (x : string) (b : Builder) : Builder :=
  mkBuilder (writer b) (buildingElement b) (attributes b) (elements b)
            (indentString b) x (offset b) (inline b) (pretty b).
Definition set_offset (x : Z) (b : Builder) : Builder :=
  mkBuilder (writer b) (buildingElement b) (attributes b) (elements b)
            (indentString b) (indent b) x (inline b) (pretty b).
Definition set_inline (x : bool) (b : Builder) : Builder :=
  mkBuilder (writer b) (buildingElement b) (attributes b) (elements b)
            (indentString b) (indent b) (offset b) x (pretty b).
Definition set_pretty (x : bool) (b : Builder) : Builder :=
  mkBuilder (writer b) (buildingElement b) (attributes b) (elements b)
            (indentString b) (indent b) (offset b) (inline b) x.

Abbreviation Go := (M Builder).

Definition write (out : string) : Go unit :=
  modify (λ b, set_writer (writer b +:+ out) b).

(** [New]: by default pretty print is enabled and the indentation is two
    spaces. *)
Definition New : Builder :=
  mkBuilder "" false ∅ [] "" "  " 0 false true.

(** The helper [s] of this variant is [fmt.Sprintf("%v", v)]. *)
Definition s (v : value) : string := format v.

Definition indentValue (b : Builder) : Z :=
  wrap (wrap (len_slice (elements b) + offset b) - 1).

Definition doIndent : Go string :=
  do b <- get;
  if negb (pretty b) then ret ""      (* pretty print is off, no indent *)
  else if bool_decide (len (indentString b) ≠ wrap (len (indent b) * indentValue b))
  then do r <- Repeat (indent b) (indentValue b);
       modify (set_indentString r);;
       ret r
  else ret (indentString b).

(** The string [doIndent] returns when it does not panic. *)
Definition indentation (b : Builder) : string :=
  if negb (pretty b) then ""
  else if bool_decide (len (indentString b) ≠ wrap (len (indent b) * indentValue b))
  then repeat_string (indent b) (Z.to_nat (indentValue b))
  else indentString b.

Definition can_indent (b : Builder) : Prop :=
  0 ≤ indentValue b ∧ len (indent b) * indentValue b ≤ maxInt.

Definition cache_coherent (b : Builder) : Prop :=
  ∃ n : nat, indentString b = repeat_string (indent b) n.

Definition render_attr (key value : string) : string :=
  " " +:+ key +:+ "=" +:+ quote +:+ attrEscaper value +:+ quote.

(** The body of the loop [for key, value := range b.attributes], over the
    entries in the order the iteration visits them. *)
Fixpoint render_entries (entries : list (string * string)) : string :=
  match entries with
  | [] => ""
  | (key, value) :: rest =>
      (if bool_decide (key ≠ "") && bool_decide (value ≠ "")
       then render_attr key value else "") +:+ render_entries rest
  end.

(** The test of [outputElement] on one entry, and the rendering of a list
    of entries without that test. *)
Definition shown (entry : string * string) : Prop :=
  entry.1 ≠ "" ∧ entry.2 ≠ "".

Global Instance shown_dec entry : Decision (shown entry).
Proof. unfold shown. apply _. Defined.

Fixpoint render_all (entries : list (string * string)) : string :=
  match entries with
  | [] => ""
  | (key, value) :: rest => render_attr key value +:+ render_all rest
  end.

Section Range.

(** Go does not specify the order in which [range] visits a map; the
    order is a parameter of the model.  What Go guarantees is
    [range_visits_all] below: each entry is visited once. *)
Variable range : gmap string string → list (string * string).

Definition range_visits_all : Prop :=
  ∀ m : gmap string string, range m ≡ₚ map_to_list m.

(** The bytes [outputElement] writes for the pending element [name]. *)
Definition start_tag (b : Builder) (name : string) (close newline : bool) : string :=
  indentation b +:+ "<" +:+ name +:+ render_entries (range (attributes b)) +:+
  (if close then " />" else ">") +:+ (if newline then nl else "").

Definition outputElement (close newline : bool) : Go unit :=
  do b <- get;
  if buildingElement b then
    do ind <- doIndent;
    do name <- index_last (elements b);
    let buf := ind +:+ "<" +:+ name +:+ render_entries (range (attributes b)) in
    modify (set_attributes ∅);;
    do buf <- (if close then
                 do es <- slice_init (elements b);
                 modify (set_elements es);;
                 ret (buf +:+ " />")
               else ret (buf +:+ ">"));
    let buf := buf +:+ (if newline then nl else "") in
    write buf;;
    modify (set_buildingElement false)
  else ret tt.

Definition Chars (chars : value) : Go unit :=
  do b <- get;
  outputElement false (pretty b && negb (inline b));;
  do b <- get;
  if inline b || negb (pretty b) then write (htmlEscaper (s chars))
  else do ind <- doIndent;
       do b <- get;
       write (ind +:+ indent b +:+ htmlEscaper (s chars) +:+ nl).

Definition CharsNoEscape (chars : value) : Go unit :=
  do b <- get;
  outputElement false (pretty b && negb (inline b));;
  do b <- get;
  if inline b || negb (pretty b) then write (s chars)
  else do ind <- doIndent;
       do b <- get;
       write (ind +:+ indent b +:+ s chars +:+ nl).

Definition Cdata (data : value) : Go unit :=
  do b <- get;
  outputElement false (pretty b);;
  do b <- get;
  let newline := if negb (pretty b) then "" else nl in
  do ind <- doIndent;
  do b <- get;
  write (ind +:+ indent b +:+ "<![CDATA[" +:+ s data +:+ "]]>" +:+ newline).

(** The loop [for i := first; i < len(args); i += 2] of [Element]. *)
Fixpoint attr_loop (args : list value) : Go unit :=
  match args with
  | [] => ret tt
  | [_] => panic msg_index
  | k :: v :: rest =>
      modify (λ b, set_attributes (<[s k := s v]> (attributes b)) b);;
      attr_loop rest
  end.

Definition first_of (args : list value) : nat := (length args `mod` 2)%nat.

Definition open_element (element : string) (args : list value) : Go unit :=
  do b <- get;
  (if buildingElement b then outputElement false (pretty b) else ret tt);;
  modify (set_buildingElement true);;
  modify (λ b, set_elements (elements b ++ [element]) b);;
  attr_loop (drop (first_of args) args).

Definition arg0 (args : list value) : Go value :=
  match args with
  | v :: _ => ret v
  | [] => panic msg_index
  end.

Definition Element (element : string) (args : list value) : Go unit :=
  open_element element args;;
  if bool_decide (first_of args ≠ 0%nat)
  then do v <- arg0 args; Chars v
  else ret tt.

(** [Attr] will add an attribute to the current element being built, or
    when not building an element it will add attributes to the next element
    to be built. *)
Definition Attr (name : string) (v : value) : Go unit :=
  modify (λ b, set_attributes (<[name := s v]> (attributes b)) b).

Definition End : Go unit :=
  do b <- get;
  if buildingElement b then outputElement true (pretty b)
  else
    let newline := if negb (pretty b) then "" else nl in
    (if inline b then
       do name <- index_last (elements b);
       write ("</" +:+ name +:+ ">" +:+ newline)
     else
       do ind <- doIndent;
       do name <- index_last (elements b);
       write (ind +:+ "</" +:+ name +:+ ">" +:+ newline));;
    do b <- get;
    do es <- slice_init (elements b);
    modify (set_elements es).

Definition Tag (element : string) (args : list value) : Go unit :=
  modify (set_inline true);;
  Element element args;;
  End;;
  modify (set_inline false).

End Range.

Fixpoint instruct_loop (args : list value) : Go unit :=
  match args with
  | [] => ret tt
  | [_] => panic msg_index
  | k :: v :: rest =>
      write (" " +:+ format k +:+ "=" +:+ quote +:+ attrEscaper (s v) +:+ quote);;
      instruct_loop rest
  end.

Definition Instruct (name : string) (args : list value) : Go unit :=
  write ("<?" +:+ name);;
  instruct_loop args;;
  write ("?>" +:+ nl).

Definition InstructXML : Go unit :=
  Instruct "xml" [VString "version"; VString "1.0"; VString "encoding"; VString "UTF-8"].

Definition Doctype (doctype : string) : Go unit :=
  write ("<!DOCTYPE " +:+ doctype +:+ ">" +:+ nl).

(** [Offset] will add the delta value to the given indent offset. *)
Definition Offset (delta : Z) : Go unit :=
  modify (λ b, set_offset (wrap (offset b + delta)) b).

Definition Indent (indent : string) : Go unit := modify (set_indent indent).

Definition Pretty (pretty : bool) : Go unit := modify (set_pretty pretty).

(** *** Further notions *)

(** The attribute map after the loop of [Element] over its key/value
    pairs: every pair is stored, a later one replacing an earlier one with
    the same key. *)
Fixpoint set_pairs (pairs : list (value * value)) (m : gmap string string)
  : gmap string string :=
  match pairs with
  | [] => m
  | (k, v) :: rest => set_pairs rest (<[s k := s v]> m)
  end.

(** A builder whose offset is not negative and whose sizes are far from the
    limits of [int]. *)
Definition sane (b : Builder) : Prop :=
  0 ≤ offset b ≤ 2 ^ 31 ∧ len_slice (elements b) < 2 ^ 31 ∧ len (indent b) < 2 ^ 31.

(** *** Call sequences *)

(** The exported methods, as data; a caller is a sequence of calls. *)
Inductive call : Type :=
  | CElement (element : string) (args : list value)
  | CAttr (name : string) (v : value)
  | CEnd
  | CTag (element : string) (args : list value)
  | CInstruct (name : string) (args : list value)
  | CInstructXML
  | CDoctype (doctype : string)
  | COffset (delta : Z)
  | CChars (chars : value)
  | CCharsNoEscape (chars : value)
  | CCdata (data : value)
  | CIndent (indent : string)
  | CPretty (pretty : bool).

Definition exec (range : gmap string string → list (string * string)) (c : call)
  : Go unit :=
  match c with
  | CElement element args => Element range element args
  | CAttr name v => Attr name v
  | CEnd => End range
  | CTag element args => Tag range element args
  | CInstruct name args => Instruct name args
  | CInstructXML => InstructXML
  | CDoctype doctype => Doctype doctype
  | COffset delta => Offset delta
  | CChars chars => Chars range chars
  | CCharsNoEscape chars => CharsNoEscape range chars
  | CCdata data => Cdata range data
  | CIndent indent => Indent indent
  | CPretty pretty => Pretty pretty
  end.

Fixpoint run (range : gmap string string → list (string * string)) (cs : list call)
  : Go unit :=
  match cs with
  | [] => ret tt
  | c :: rest => exec range c;; run range rest
  end.

(** [m] keeps the property [P] of the builder, whether it returns or
    panics. *)
Definition preserves {A} (P : Builder → Prop) (m : Go A) : Prop :=
  ∀ b, P b → P (state_of (m b)).

End Classic.

(** * Properties *)

(** ** The monad and the integers *)

Section MonadFacts.
Context {St : Type}.
Local Open Scope go_scope.

Lemma bind_assoc {A B C} (m : M St A) (f : A → M St B) (g : B → M St C) st :
  bind (bind m f) g st = bind m (λ x, bind (f x) g) st.
Proof. unfold bind. by destruct (m st). Qed.


Lemma bind_Ok {A B} (m : M St A) (k : A → M St B) st a st' :
  m st = Ok a st' → bind m k st = k a st'.
Proof. unfold bind. by intros ->. Qed.

Lemma bind_Panic {A B} (m : M St A) (k : A → M St B) st msg st' :
  m st = Panic msg st' → bind m k st = Panic msg st'.
Proof. unfold bind. by intros ->. Qed.

End MonadFacts.

Lemma wrap_small z : minInt ≤ z ≤ maxInt → wrap z = z.
Proof.
  unfold wrap, minInt, maxInt. intros H.
  rewrite Z.mod_small; lia.
Qed.

Lemma wrap_range z : minInt ≤ wrap z ≤ maxInt.
Proof.
  unfold wrap, minInt, maxInt.
  pose proof (Z.mod_pos_bound (z + 2 ^ 63) (2 ^ 64)). lia.
Qed.

Lemma wrap_wrap_add a b : wrap (wrap a + b) = wrap (a + b).
Proof.
  unfold wrap.
  replace ((a + 2 ^ 63) `mod` 2 ^ 64 - 2 ^ 63 + b + 2 ^ 63)
    with ((a + 2 ^ 63) `mod` 2 ^ 64 + b) by lia.
  rewrite Zplus_mod_idemp_l. do 2 f_equal. lia.
Qed.

(** ** Strings *)

Lemma len_nonneg str : 0 ≤ len str.
Proof. unfold len. lia. Qed.

Lemma string_app_nil_l (str : string) : "" +:+ str = str.
Proof. reflexivity. Qed.

Lemma string_app_cons c (s1 s2 : string) : String c s1 +:+ s2 = String c (s1 +:+ s2).
Proof. reflexivity. Qed.

Lemma string_app_nil_r (str : string) : str +:+ "" = str.
Proof.
  induction str as [|c str IH]; [done|].
  by rewrite string_app_cons, IH.
Qed.

Lemma string_app_assoc (s1 s2 s3 : string) : (s1 +:+ s2) +:+ s3 = s1 +:+ s2 +:+ s3.
Proof.
  induction s1 as [|c s1 IH]; [done|].
  by rewrite !string_app_cons, IH.
Qed.

Lemma len_app s1 s2 : len (s1 +:+ s2) = len s1 + len s2.
Proof.
  induction s1 as [|c s1 IH].
  - rewrite string_app_nil_l. unfold len. simpl. lia.
  - rewrite string_app_cons. unfold len in *. cbn [String.length].
    rewrite !Nat2Z.inj_succ. lia.
Qed.


Lemma len_repeat_string str n : len (repeat_string str n) = len str * Z.of_nat n.
Proof.
  induction n as [|n IH]; cbn [repeat_string].
  - unfold len at 1. simpl. lia.
  - rewrite len_app, IH. lia.
Qed.

Lemma Sprint_single v : Sprint [v] = format v.
Proof. cbn [Sprint]. by rewrite string_app_nil_l, string_app_nil_r. Qed.

Lemma s_string str : s [VString str] = str.
Proof. unfold s. by rewrite Sprint_single. Qed.


(** ** The order-preserving variant *)

Module OrderedProofs.
Import Ordered.
Local Open Scope go_scope.

(** *** First occurrence wins position, last occurrence wins value *)

Lemma elem_of_first_seen n names : n ∈ first_seen names ↔ n ∈ names.
Proof.
  induction names as [|a rest IH]; [done|]. cbn [first_seen].
  rewrite !elem_of_cons, list_elem_of_filter, IH.
  destruct (decide (n = a)); tauto.
Qed.

Lemma NoDup_first_seen names : NoDup (first_seen names).
Proof.
  induction names as [|a rest IH]; [constructor|]. cbn [first_seen].
  constructor.
  - rewrite list_elem_of_filter. tauto.
  - by apply NoDup_filter.
Qed.

Lemma filter_ne_absent (n : string) (l : list string) :
  n ∉ l → filter (λ m, m ≠ n) l = l.
Proof.
  induction l as [|a l IH]; [done|]. rewrite not_elem_of_cons. intros [Hne Hl].
  rewrite filter_cons_True by done. by rewrite IH.
Qed.

(** Scanning from the left: a name is appended when it is new. *)
Lemma first_seen_snoc names n :
  first_seen (names ++ [n]) =
    if decide (n ∈ names) then first_seen names else first_seen names ++ [n].
Proof.
  induction names as [|a rest IH]; [done|].
  cbn [app first_seen]. rewrite IH.
  destruct (decide (n ∈ rest)) as [Hin|Hin];
    destruct (decide (n ∈ a :: rest)) as [Hin'|Hin']; try done.
  - set_solver.
  - assert (n = a) as -> by set_solver.
    rewrite filter_app, (filter_cons_False _ a []) by naive_solver.
    by rewrite filter_nil, app_nil_r.
  - rewrite filter_app, (filter_cons_True _ n []) by set_solver.
    by rewrite filter_nil.
Qed.

(** If [n] is written before [m], the first binding of [n] comes before
    every binding of [m]. *)
Lemma first_seen_order names n m :
  [n; m] `sublist_of` first_seen names →
  ∃ l1 l2, names = l1 ++ n :: l2 ∧ (n ∉ l1) ∧ (m ∉ l1) ∧ m ∈ l2.
Proof.
  induction names as [|a rest IH]; cbn [first_seen].
  - intros H. apply sublist_nil_r in H. done.
  - intros H. apply sublist_cons_r in H as [H|(l' & Heq & H)].
    + assert ([n; m] `sublist_of` first_seen rest) as H'.
      { etrans; [exact H|]. apply sublist_filter. }
      destruct (IH H') as (l1 & l2 & -> & Hn & Hm & Hm2).
      assert (n ≠ a ∧ m ≠ a) as [??].
      { split.
        - assert (n ∈ filter (λ m0, m0 ≠ a) (first_seen (l1 ++ n :: l2))) as Hin
            by (eapply elem_of_sublist; [|exact H]; set_solver).
          apply list_elem_of_filter in Hin. tauto.
        - assert (m ∈ filter (λ m0, m0 ≠ a) (first_seen (l1 ++ n :: l2))) as Hin
            by (eapply elem_of_sublist; [|exact H]; set_solver).
          apply list_elem_of_filter in Hin. tauto. }
      exists (a :: l1), l2. set_solver.
    + simplify_eq. apply singleton_sublist_l in H.
      apply list_elem_of_filter in H as [Hne H].
      rewrite elem_of_first_seen in H.
      exists [], rest. set_solver.
Qed.

Lemma last_value_snoc name bs n v :
  last_value name (bs ++ [(n, v)]) =
    if decide (n = name) then Some v else last_value name bs.
Proof.
  induction bs as [|[a w] rest IH]; cbn [app last_value].
  - done.
  - rewrite IH. destruct (decide (n = name)); [done|].
    done.
Qed.

Lemma last_value_is_Some name bs : is_Some (last_value name bs) ↔ name ∈ bs.*1.
Proof.
  induction bs as [|[a w] rest IH]; cbn [last_value fmap list_fmap].
  - rewrite elem_of_nil. split; [by intros [? ?]|done].
  - rewrite elem_of_cons, <- IH. cbn.
    destruct (last_value name rest) eqn:E.
    + split; eauto.
    + destruct (decide (a = name)) as [->|Hne].
      * split; eauto.
      * split; [by intros [? ?]|]. intros [?|[? ?]]; done.
Qed.

(** The value kept is that of the last binding of the name. *)
Lemma last_value_Some name bs v :
  last_value name bs = Some v ↔
  ∃ l1 l2, bs = l1 ++ (name, v) :: l2 ∧ name ∉ l2.*1.
Proof.
  induction bs as [|[a w] rest IH]; cbn [last_value].
  - split; [done|]. intros (l1 & l2 & H & _). by destruct l1.
  - destruct (last_value name rest) as [u|] eqn:E.
    + split.
      * intros [= ->]. destruct (proj1 IH eq_refl) as (l1 & l2 & -> & Hn).
        by exists ((a, w) :: l1), l2.
      * intros (l1 & l2 & H & Hn). destruct l1 as [|x l1]; simplify_eq/=.
        -- assert (is_Some (last_value name l2)) as Hs by (rewrite E; eauto).
           apply last_value_is_Some in Hs. done.
        -- apply IH. eauto.
    + assert (name ∉ rest.*1) as Hrest.
      { rewrite <- last_value_is_Some, E. by intros [? ?]. }
      destruct (decide (a = name)) as [->|Hne].
      * split.
        -- intros [= ->]. by exists [], rest.
        -- intros (l1 & l2 & H & Hn). destruct l1 as [|x l1]; simplify_eq/=; [done|].
           exfalso. apply Hrest. rewrite fmap_app. set_solver.
      * split; [done|].
        intros (l1 & l2 & H & Hn). destruct l1 as [|x l1]; simplify_eq/=.
        exfalso. apply Hrest. rewrite fmap_app. set_solver.
Qed.

(** Unfold the field updates and project. *)
Ltac setters :=
  unfold set_writer, set_buildingElement, set_attributes, set_attrnames,
    set_elements, set_indentString, set_indent, set_offset, set_empty,
    set_inline in *;
  cbn [writer buildingElement attributes attrnames elements indentString
       indent offset empty inline] in *.

(** Setting a field to the value it has changes nothing. *)
Lemma set_indentString_same b : set_indentString (indentString b) b = b.
Proof. by destruct b. Qed.

(** [doIndent] returns [indentation] whenever the count is not negative. *)
Lemma doIndent_ok b :
  can_indent b →
  doIndent b = Ok (indentation b) (set_indentString (indentation b) b).
Proof.
  intros [Hpos Hfit]. unfold doIndent, indentation, bind, get.
  case_bool_decide as Hlen.
  - unfold Repeat. rewrite bool_decide_eq_false_2 by lia.
    rewrite bool_decide_eq_false_2 by lia. reflexivity.
  - unfold ret. by rewrite set_indentString_same.
Qed.



(** [doIndent] touches nothing but the cache. *)
Lemma doIndent_state b : ∃ str, state_of (doIndent b) = set_indentString str b.
Proof.
  unfold doIndent, bind, get, Repeat.
  case_bool_decide.
  - repeat case_bool_decide; unfold panic, ret, modify; simpl;
      first [ by exists (indentString b); rewrite set_indentString_same
            | by eexists ].
  - exists (indentString b). by rewrite set_indentString_same.
Qed.

Lemma doIndent_writer b : writer (state_of (doIndent b)) = writer b.
Proof. by destruct (doIndent_state b) as [str ->]. Qed.

Lemma index_last_snoc (es : list string) name (b : Builder) :
  index_last (es ++ [name]) b = Ok name b.
Proof. unfold index_last. by rewrite last_snoc. Qed.

Lemma slice_init_snoc (es : list string) name (b : Builder) :
  slice_init (es ++ [name]) b = Ok es b.
Proof.
  unfold slice_init. destruct (es ++ [name]) eqn:E.
  - by destruct es.
  - rewrite <- E. unfold ret. f_equal.
    rewrite length_app. simpl.
    replace (length es + 1 - 1)%nat with (length es) by lia.
    by rewrite take_app_length.
Qed.

(** Nothing is pending: [outputElement] does nothing. *)
Lemma outputElement_idle close b :
  buildingElement b = false → outputElement close b = Ok tt b.
Proof. intros H. unfold outputElement, bind, get. by rewrite H. Qed.

(** An element is pending: [outputElement] writes its start tag. *)
Lemma outputElement_pending close b es name :
  buildingElement b = true → elements b = es ++ [name] →
  inline b ≠ 0 ∨ can_indent b →
  outputElement close b =
    Ok tt (mkBuilder (writer b +:+ start_tag b name close) false ∅ []
             (if close then es else elements b)
             (if bool_decide (inline b = 0) then indentation b else indentString b)
             (indent b) (offset b) (empty b) (inline b)).
Proof.
  intros Hb He Hi. unfold outputElement, start_tag, bind, get. rewrite Hb.
  assert (∀ st : Builder, index_last (elements b) st = Ok name st) as Hlast
    by (intros; rewrite He; apply index_last_snoc).
  assert (∀ st : Builder, slice_init (elements b) st = Ok es st) as Hinit
    by (intros; rewrite He; apply slice_init_snoc).
  case_bool_decide as Hin.
  - destruct Hi as [Hi|Hi]; [done|]. rewrite (doIndent_ok b Hi), Hlast.
    destruct close; unfold modify, ret, write; cbn.
    + rewrite Hinit. setters. by rewrite !string_app_assoc.
    + setters. by rewrite !string_app_assoc.
  - unfold ret at 1. rewrite Hlast.
    destruct close; unfold modify, ret, write; cbn.
    + rewrite Hinit. setters.
      by rewrite !string_app_assoc, !string_app_nil_r.
    + setters. by rewrite !string_app_assoc, !string_app_nil_r.
Qed.

(** *** [End] with no open element *)

Lemma End_empty_stack_ordered b :
  elements b = [] →
  ∃ msg b', End b = Panic msg b' ∧ writer b' = writer b.
Proof.
  intros He. pose proof (doIndent_writer b) as Hw.
  unfold End, outputElement, bind, get. cbv beta iota.
  destruct (buildingElement b) eqn:Hb; cbv beta iota; rewrite ?Hb; cbv beta iota.
  - case_bool_decide.
    + destruct (doIndent b) as [ind st|msg st]; simpl in Hw.
      * rewrite He. unfold index_last, panic. simpl. eauto.
      * eauto.
    + unfold ret at 1. rewrite He. unfold index_last, panic. simpl. eauto.
  - case_bool_decide.
    + rewrite He. unfold index_last, panic. simpl. eauto.
    + destruct (doIndent b) as [ind st|msg st]; simpl in Hw.
      * rewrite He. unfold index_last, panic. simpl. eauto.
      * eauto.
Qed.

(** *** The leading odd argument of [Element] *)

Lemma first_of_even (args : list value) :
  Nat.Even (length args) → first_of args = 0%nat.
Proof.
  intros [m Hm]. unfold first_of. rewrite Hm.
  replace (2 * m)%nat with (0 + m * 2)%nat by lia.
  by rewrite Nat.Div0.mod_add.
Qed.

Lemma first_of_odd v (args : list value) :
  Nat.Even (length args) → first_of (v :: args) = 1%nat.
Proof.
  intros [m Hm]. unfold first_of. simpl length. rewrite Hm.
  replace (S (2 * m))%nat with (1 + m * 2)%nat by lia.
  by rewrite Nat.Div0.mod_add.
Qed.

Lemma Element_leading_ordered element v kvs b :
  Nat.Even (length kvs) →
  Element element (v :: kvs) b = (Element element kvs;; Chars [v]) b.
Proof.
  intros Hev. unfold Element, open_element.
  rewrite (first_of_odd v kvs Hev), (first_of_even kvs Hev).
  rewrite bool_decide_eq_true_2 by done.
  rewrite (bool_decide_eq_false_2 (0 ≠ 0)%nat) by naive_solver.
  cbn [drop arg0]. unfold bind, ret, get. cbv beta iota.
  repeat case_match; congruence.
Qed.

(** *** The configuration mutators *)


Lemma Indent_twice_ordered unit b : (Indent unit;; Indent unit) b = Indent unit b.
Proof. reflexivity. Qed.

Lemma Empty_twice_ordered useEmpty b : (Empty useEmpty;; Empty useEmpty) b = Empty useEmpty b.
Proof. reflexivity. Qed.

(** *** The buffer of pending attributes *)

Lemma render_attrs_buffer bs b :
  buffer_of bs b → render_attrs (attributes b) (attrnames b) = render_pairs (merged bs).
Proof.
  intros [-> Hv]. unfold merged.
  induction (first_seen bs.*1) as [|n l IH]; [done|].
  cbn [render_attrs render_pairs fmap list_fmap]. by rewrite IH, Hv.
Qed.

Lemma buffer_of_nil b : attributes b = ∅ → attrnames b = [] → buffer_of [] b.
Proof. intros Hm Hl. split; [done|]. intros n. by rewrite Hm, lookup_empty. Qed.

(** [Attr] records one binding, whether or not an element is pending, and
    touches nothing but the buffer. *)
Lemma Attr_buffer bs b name v :
  buffer_of bs b →
  ∃ m l, Attr name v b = Ok tt (set_attributes m (set_attrnames l b)) ∧
         buffer_of (bs ++ [(name, s [v])]) (set_attributes m (set_attrnames l b)).
Proof.
  intros [Hl Hv]. unfold Attr, bind, get, modify, ret. cbv beta iota.
  case_bool_decide as Hin.
  - exists (<[name := s [v]]> (attributes b)), (attrnames b). split.
    { by destruct b. }
    split; setters.
    + rewrite fmap_app. change ([(name, s [v])].*1) with [name].
      rewrite first_seen_snoc.
      rewrite Hv, last_value_is_Some in Hin. by rewrite decide_True.
    + intros n. rewrite last_value_snoc, lookup_insert, Hv.
      by destruct (decide (name = n)).
  - exists (<[name := s [v]]> (attributes b)), (attrnames b ++ [name]).
    split; [done|]. split; setters.
    + rewrite fmap_app. change ([(name, s [v])].*1) with [name].
      rewrite first_seen_snoc.
      rewrite Hv, last_value_is_Some in Hin. by rewrite decide_False, Hl.
    + intros n. rewrite last_value_snoc, lookup_insert, Hv.
      by destruct (decide (name = n)).
Qed.

Lemma set_buffer_twice m l m' l' b :
  set_attributes m' (set_attrnames l' (set_attributes m (set_attrnames l b)))
  = set_attributes m' (set_attrnames l' b).
Proof. reflexivity. Qed.

Lemma set_buffer_same b : set_attributes (attributes b) (set_attrnames (attrnames b) b) = b.
Proof. by destruct b. Qed.

Lemma attr_calls_buffer calls : ∀ bs b,
  buffer_of bs b →
  ∃ m l, attr_calls calls b = Ok tt (set_attributes m (set_attrnames l b)) ∧
         buffer_of (bs ++ bindings calls) (set_attributes m (set_attrnames l b)).
Proof.
  induction calls as [|[name v] rest IH]; intros bs b Hb.
  - exists (attributes b), (attrnames b). rewrite set_buffer_same.
    split; [done|]. by rewrite app_nil_r.
  - cbn [attr_calls]. destruct (Attr_buffer bs b name v Hb) as (m & l & HA & Hb1).
    rewrite (bind_Ok _ _ _ _ _ HA).
    destruct (IH _ _ Hb1) as (m' & l' & HR & Hb2).
    exists m', l'. rewrite HR, set_buffer_twice. split; [done|].
    rewrite set_buffer_twice in Hb2.
    unfold bindings in *. cbn [fmap list_fmap fst snd].
    by rewrite <- app_assoc in Hb2.
Qed.

Lemma attr_loop_buffer pairs : ∀ bs b,
  buffer_of bs b →
  ∃ m l, attr_loop (flat_pairs pairs) b = Ok tt (set_attributes m (set_attrnames l b)) ∧
         buffer_of (bs ++ effective pairs) (set_attributes m (set_attrnames l b)).
Proof.
  induction pairs as [|[k v] rest IH]; intros bs b Hb.
  - exists (attributes b), (attrnames b). rewrite set_buffer_same.
    split; [done|]. by rewrite app_nil_r.
  - cbn [flat_pairs attr_loop effective]. destruct (keeps k v).
    + destruct (Attr_buffer bs b (s [k]) (VString (s [v])) Hb) as (m & l & HA & Hb1).
      rewrite (bind_Ok _ _ _ _ _ HA).
      destruct (IH _ _ Hb1) as (m' & l' & HR & Hb2).
      exists m', l'. rewrite HR, set_buffer_twice. split; [done|].
      rewrite set_buffer_twice in Hb2.
      by rewrite <- app_assoc, s_string in Hb2.
    + destruct (IH _ _ Hb) as (m' & l' & HR & Hb2).
      exists m', l'. split; [|done].
      unfold bind, ret. cbv beta iota. exact HR.
Qed.

Lemma length_flat_pairs pairs : Nat.Even (length (flat_pairs pairs)).
Proof.
  exists (length pairs). induction pairs as [|[k v] rest IH]; [done|].
  cbn [flat_pairs length]. lia.
Qed.

Lemma indentValue_small b :
  minInt + 1 ≤ len_slice (elements b) + offset b ≤ maxInt →
  indentValue b = len_slice (elements b) + offset b - 1.
Proof.
  intros H. unfold indentValue.
  rewrite (wrap_small (_ + _)) by lia.
  rewrite wrap_small; [done|]. unfold minInt, maxInt in *. lia.
Qed.

Lemma sane_can_indent b b' element :
  sane b → elements b' = elements b ++ [element] →
  offset b' = offset b → indent b' = indent b → can_indent b'.
Proof.
  intros (Ho & He & Hi) Hes Hoff Hind. unfold can_indent.
  assert (len_slice (elements b') = len_slice (elements b) + 1) as Hlen.
  { unfold len_slice. rewrite Hes, length_app. simpl. lia. }
  assert (0 ≤ len_slice (elements b)) by (unfold len_slice; lia).
  rewrite indentValue_small by (unfold minInt, maxInt; lia).
  rewrite Hlen, Hoff, Hind. pose proof (len_nonneg (indent b)).
  unfold maxInt. nia.
Qed.

(** One element from [Element] to its flush: the start tag holds the
    bindings that were in the buffer ([pre]), then those of the pairs of
    [Element] that [keeps] lets through, then those of the [Attr] calls,
    merged by the rule of first position and last value. *)
Lemma element_bindings b pre element pairs calls :
  buildingElement b = false → buffer_of pre b → sane b →
  let bs := pre ++ effective pairs ++ bindings calls in
  let ind := indentation (set_elements (elements b ++ [element]) b) in
  (Element element (flat_pairs pairs);; attr_calls calls;; Flush) b =
    Ok tt (mkBuilder
             (writer b +:+
              (if bool_decide (inline b = 0) then ind else "") +:+
              "<" +:+ element +:+ render_pairs (merged bs) +:+ ">" +:+
              (if bool_decide (inline b = 0) then nl else ""))
             false ∅ [] (elements b ++ [element])
             (if bool_decide (inline b = 0) then ind else indentString b)
             (indent b) (offset b) (empty b) (inline b)).
Proof.
  intros Hb Hpre Hsane bs ind.
  unfold Element, open_element.
  rewrite (first_of_even _ (length_flat_pairs pairs)).
  rewrite (bool_decide_eq_false_2 (0 ≠ 0)%nat) by naive_solver.
  rewrite drop_0. unfold bind at 1 2 3 4 5 6 7. unfold get at 1. cbv beta iota.
  rewrite Hb. unfold ret at 1, modify at 1 2. cbv beta iota.
  set (b1 := set_elements _ _).
  assert (buffer_of pre b1) as Hpre1 by (destruct Hpre; by split).
  destruct (attr_loop_buffer pairs pre b1 Hpre1) as (m & l & HL & Hb2).
  rewrite HL. unfold ret at 1. cbv beta iota.
  destruct (attr_calls_buffer calls _ _ Hb2) as (m' & l' & HC & Hb3).
  rewrite set_buffer_twice in HC, Hb3. rewrite HC.
  set (b3 := set_attributes m' (set_attrnames l' b1)) in *.
  unfold Flush.
  rewrite (outputElement_pending false b3 (elements b) element); try done.
  - unfold start_tag. rewrite (render_attrs_buffer _ _ Hb3).
    subst bs ind. by rewrite <- app_assoc.
  - right. by apply (sane_can_indent b b3 element).
Qed.

Lemma merged_names bs : (merged bs).*1 = first_seen bs.*1.
Proof.
  unfold merged.
  induction (first_seen bs.*1) as [|n l IH]; [done|].
  rewrite !fmap_cons. cbn [fst]. by rewrite IH.
Qed.

Lemma elem_of_merged bs n v :
  (n, v) ∈ merged bs → last_value n bs = Some v.
Proof.
  unfold merged. rewrite list_elem_of_fmap. intros (n' & [= -> ->] & Hin).
  rewrite elem_of_first_seen, <- last_value_is_Some in Hin.
  by destruct Hin as [w ->].
Qed.

(** The rule, read on the merged list. *)
Lemma merged_rule bs :
  NoDup (merged bs).*1 ∧
  (∀ n, n ∈ (merged bs).*1 ↔ n ∈ bs.*1) ∧
  (∀ n m, [n; m] `sublist_of` (merged bs).*1 →
          ∃ l1 l2, bs.*1 = l1 ++ n :: l2 ∧ (n ∉ l1) ∧ (m ∉ l1) ∧ m ∈ l2) ∧
  (∀ n v, (n, v) ∈ merged bs →
          ∃ l1 l2, bs = l1 ++ (n, v) :: l2 ∧ n ∉ l2.*1).
Proof.
  rewrite merged_names. split; [apply NoDup_first_seen|].
  split; [intros n; apply elem_of_first_seen|].
  split; [intros n m; apply first_seen_order|].
  intros n v Hin. by apply last_value_Some, elem_of_merged.
Qed.

Lemma keeps_spec k v :
  keeps k v = true ↔ s [k] ≠ "" ∧ (s [v] ≠ "" ∨ v = VBlank).
Proof.
  unfold keeps. rewrite andb_true_iff, orb_true_iff, !bool_decide_eq_true.
  done.
Qed.

Lemma effective_spec pairs :
  effective pairs = supplied (filter (λ p, keeps p.1 p.2 = true) pairs).
Proof.
  induction pairs as [|[k v] rest IH]; [done|].
  cbn [effective]. rewrite filter_cons. cbn [fst snd].
  destruct (keeps k v) eqn:E.
  - rewrite decide_True by done. unfold supplied in *. rewrite fmap_cons.
    cbn [fst snd app]. by rewrite IH.
  - rewrite decide_False by done. by rewrite app_nil_l.
Qed.

(** *** [Chars] *)





(** *** One inline level more *)

(** Inside an inline region no method looks at the inline depth beyond
    testing that it is positive.  So a run at depth [n + 1] is the run at
    depth [n >= 1] with the depth shifted: [lifts]. *)
Lemma lifts_ret {A} (a : A) : lifts (ret a).
Proof. intros b Hb. split; [done|]. by intros ?? [= _ <-]. Qed.

Lemma lifts_panic {A} msg : lifts (panic (A := A) msg).
Proof. intros b Hb. split; [done|]. intros; discriminate. Qed.

Lemma lifts_bind {A B} (m : Go A) (k : A → Go B) :
  lifts m → (∀ a, lifts (k a)) → lifts (bind m k).
Proof.
  intros Hm Hk b Hb. destruct (Hm b Hb) as [E1 I1]. unfold bind. rewrite E1.
  destruct (m b) as [a b1|msg b1]; cbn [rmap].
  - assert (1 ≤ inline b1) as Hb1 by (by rewrite (I1 a b1 eq_refl)).
    destruct (Hk a b1 Hb1) as [E2 I2]. split; [done|].
    intros a' b' Hr. rewrite (I2 _ _ Hr). by apply (I1 a).
  - split; [done|]. intros; discriminate.
Qed.

Lemma lifts_get {A} (k : Builder → Go A) :
  (∀ b, 1 ≤ inline b →
        k (up b) (up b) = rmap up (k b b) ∧
        ∀ a b', k b b = Ok a b' → inline b' = inline b) →
  lifts (bind get k).
Proof. intros H b Hb. unfold bind, get. by apply H. Qed.

Lemma lifts_modify (f : Builder → Builder) :
  (∀ b, f (up b) = up (f b)) → (∀ b, inline (f b) = inline b) →
  lifts (modify f).
Proof.
  intros Hf Hi b Hb. unfold modify. cbn [rmap]. rewrite Hf.
  split; [done|]. intros ?? [= _ <-]. apply Hi.
Qed.

Lemma lifts_write out : lifts (write out).
Proof. by apply lifts_modify. Qed.

Lemma lifts_index_last es : lifts (index_last es).
Proof. unfold index_last. destruct (last es); [apply lifts_ret|apply lifts_panic]. Qed.

Lemma lifts_slice_init es : lifts (slice_init es).
Proof. unfold slice_init. destruct es; [apply lifts_panic|apply lifts_ret]. Qed.

(** Solve [lifts m] for [m] built from the combinators. *)
Ltac lifts_step :=
  first
    [ apply lifts_ret | apply lifts_panic | apply lifts_write
    | apply lifts_index_last | apply lifts_slice_init
    | (apply lifts_modify; [done|done])
    | (apply lifts_bind; [|intros ?])
    | match goal with
      | |- lifts (if ?c then _ else _) => destruct c
      | |- lifts (match ?c with _ => _ end) => destruct c
      end
    | progress cbv zeta ].

Ltac lifts_tac := repeat lifts_step.

(** The fields of [b] a method captured with [get], those of [up b]
    among them, become variables; what is left is [lifts] of the rest. *)
Ltac captured b Hb :=
  change (buildingElement (up b)) with (buildingElement b);
  change (elements (up b)) with (elements b);
  change (attributes (up b)) with (attributes b);
  change (attrnames (up b)) with (attrnames b);
  change (empty (up b)) with (empty b);
  change (indent (up b)) with (indent b);
  change (inline (up b)) with (inline b + 1);
  rewrite ?(bool_decide_eq_false_2 (inline b + 1 = 0)) by lia;
  rewrite ?(bool_decide_eq_false_2 (inline b = 0)) by lia;
  rewrite ?(bool_decide_eq_true_2 (0 < inline b + 1)) by lia;
  rewrite ?(bool_decide_eq_true_2 (0 < inline b)) by lia;
  generalize (buildingElement b) (elements b) (attributes b) (attrnames b)
             (empty b) (indent b);
  intros;
  match goal with
  | |- ?f (up b) = _ ∧ _ => cut (lifts f); [intros Hl; exact (Hl b Hb)|]
  end.

Lemma lifts_outputElement close : lifts (outputElement close).
Proof.
  apply lifts_get. intros b Hb. captured b Hb. lifts_tac.
Qed.

Lemma lifts_Attr name v : lifts (Attr name v).
Proof.
  apply lifts_get. intros b Hb. captured b Hb. lifts_tac.
Qed.

Lemma lifts_Chars chars : lifts (Chars chars).
Proof.
  unfold Chars. apply lifts_bind; [apply lifts_outputElement|]. intros _.
  cbv zeta. apply lifts_get. intros b Hb. captured b Hb. lifts_tac.
Qed.

Lemma lifts_CharsNoEscape chars : lifts (CharsNoEscape chars).
Proof.
  unfold CharsNoEscape. apply lifts_bind; [apply lifts_outputElement|]. intros _.
  cbv zeta. apply lifts_get. intros b Hb. captured b Hb. lifts_tac.
Qed.

Lemma lifts_Cdata data : lifts (Cdata data).
Proof.
  unfold Cdata. apply lifts_bind; [apply lifts_outputElement|]. intros _.
  cbv zeta. apply lifts_get. intros b Hb. captured b Hb. lifts_tac.
Qed.

Lemma lifts_attr_loop : ∀ args, lifts (attr_loop args).
Proof.
  fix IH 1. intros [|k [|v rest]]; cbn [attr_loop].
  - apply lifts_ret.
  - apply lifts_panic.
  - apply lifts_bind; [|intros _; apply IH].
    destruct (keeps k v); [apply lifts_Attr|apply lifts_ret].
Qed.

Lemma lifts_open_element element args : lifts (open_element element args).
Proof.
  apply lifts_get. intros b Hb. captured b Hb.
  apply lifts_bind; [|intros _].
  { match goal with |- lifts (if ?c then _ else _) => destruct c end;
      [apply lifts_outputElement|apply lifts_ret]. }
  apply lifts_bind; [by apply lifts_modify|intros _].
  apply lifts_bind; [by apply lifts_modify|intros _].
  apply lifts_attr_loop.
Qed.

Lemma lifts_arg0 args : lifts (arg0 args).
Proof. destruct args; [apply lifts_panic|apply lifts_ret]. Qed.

Lemma lifts_Element element args : lifts (Element element args).
Proof.
  unfold Element. apply lifts_bind; [apply lifts_open_element|intros _].
  case_bool_decide; [|apply lifts_ret].
  apply lifts_bind; [apply lifts_arg0|intros v; apply lifts_Chars].
Qed.

Lemma lifts_ElementNoEscape element args : lifts (ElementNoEscape element args).
Proof.
  unfold ElementNoEscape. apply lifts_bind; [apply lifts_open_element|intros _].
  case_bool_decide; [|apply lifts_ret].
  apply lifts_bind; [apply lifts_arg0|intros v; apply lifts_CharsNoEscape].
Qed.

Lemma lifts_End : lifts End.
Proof.
  apply lifts_get. intros b Hb. captured b Hb.
  match goal with |- lifts (if ?c then _ else _) => destruct c end;
    [apply lifts_outputElement|].
  apply lifts_bind; [lifts_tac|intros _].
  apply lifts_get. intros b' Hb'. captured b' Hb'. lifts_tac.
Qed.

Lemma lifts_instruct_loop : ∀ args, lifts (instruct_loop args).
Proof.
  fix IH 1. intros [|k [|v rest]]; cbn [instruct_loop].
  - apply lifts_ret.
  - apply lifts_panic.
  - apply lifts_bind; [apply lifts_write|intros _; apply IH].
Qed.

Lemma lifts_Instruct name args : lifts (Instruct name args).
Proof.
  unfold Instruct. apply lifts_bind; [apply lifts_write|intros _].
  apply lifts_bind; [apply lifts_instruct_loop|intros _; apply lifts_write].
Qed.

(** [Inline] and [EndInline] inside an inline region, far from the
    largest [int]: the depth goes up, and down, by one. *)
Lemma Inline_inside b :
  1 ≤ inline b → inline b + 1 ≤ maxInt →
  Inline b = Ok tt (up b).
Proof.
  intros Hb Hmax. unfold Inline, bind, get, modify, ret. cbv beta iota.
  rewrite bool_decide_eq_false_2 by lia.
  unfold up. by rewrite wrap_small by (unfold minInt, maxInt in *; lia).
Qed.

Lemma EndInline_inside b :
  2 ≤ inline b ≤ maxInt →
  EndInline b = Ok tt (set_inline (inline b - 1) b).
Proof.
  intros Hb. unfold EndInline, bind, get, modify, ret. cbv beta iota. setters.
  rewrite wrap_small by (unfold minInt, maxInt in *; lia).
  by rewrite bool_decide_eq_false_2 by lia.
Qed.

(** Leaving the outermost inline region ends the line. *)
Lemma EndInline_outermost b :
  inline b = 1 →
  EndInline b = Ok tt (set_writer (writer b +:+ nl) (set_inline 0 b)).
Proof.
  intros Hb. unfold EndInline, bind, get, modify, ret, write. cbv beta iota.
  setters. rewrite Hb. by rewrite bool_decide_eq_true_2 by done.
Qed.

(** The same for the methods that enter an inline region of their own:
    [lifts_below]. *)
Lemma lifts_is_below {A} (m : Go A) : lifts m → lifts_below m.
Proof. intros H b Hb _. by apply H. Qed.

Lemma lifts_below_region (body : Go unit) :
  lifts body → lifts_below (Inline;; body;; EndInline).
Proof.
  intros Hbody b Hb Hmax. unfold bind.
  rewrite (Inline_inside b) by lia.
  rewrite (Inline_inside (up b)) by (unfold up; setters; lia).
  assert (1 ≤ inline (up b)) as Hup by (unfold up; setters; lia).
  destruct (Hbody (up b) Hup) as [E I]. rewrite E.
  destruct (body (up b)) as [[] b1|msg b1]; cbn [rmap].
  - pose proof (I tt b1 eq_refl) as Hi. unfold up in Hi at 1. setters.
    rewrite (EndInline_inside b1) by lia.
    rewrite (EndInline_inside (up b1)) by (unfold up; setters; lia).
    cbn [rmap]. split.
    + unfold up. setters. do 2 f_equal. lia.
    + intros ?? [= _ <-]. setters. lia.
  - split; [done|]. intros; discriminate.
Qed.

Lemma lifts_below_ext {A} (m m' : Go A) :
  (∀ b, m b = m' b) → lifts_below m → lifts_below m'.
Proof.
  intros Hext H b Hb Hmax. rewrite <- (Hext (up b)), <- (Hext b).
  destruct (H b Hb Hmax) as [E I]. split; [done|].
  intros a b'. apply I.
Qed.

Lemma lifts_below_Tag element args : lifts_below (Tag element args).
Proof.
  apply (lifts_below_ext (Inline;; (Element element args;; End);; EndInline)).
  { intros b. unfold Tag, bind.
    destruct (Inline b) as [[] b1|]; [|done].
    destruct (Element element args b1) as [[] b2|]; [|done].
    by destruct (End b2) as [[] b3|]. }
  apply lifts_below_region.
  apply lifts_bind; [apply lifts_Element|intros _; apply lifts_End].
Qed.

Lemma lifts_below_TagNoEscape element args : lifts_below (TagNoEscape element args).
Proof.
  apply (lifts_below_ext (Inline;; (ElementNoEscape element args;; End);; EndInline)).
  { intros b. unfold TagNoEscape, bind.
    destruct (Inline b) as [[] b1|]; [|done].
    destruct (ElementNoEscape element args b1) as [[] b2|]; [|done].
    by destruct (End b2) as [[] b3|]. }
  apply lifts_below_region.
  apply lifts_bind; [apply lifts_ElementNoEscape|intros _; apply lifts_End].
Qed.

Lemma lifts_below_exec c : content_call c = true → lifts_below (exec c).
Proof.
  destruct c; cbn [content_call exec]; intros Hc; try discriminate;
    try (by apply lifts_below_Tag); try (by apply lifts_below_TagNoEscape);
    apply lifts_is_below.
  - apply lifts_Element.
  - apply lifts_ElementNoEscape.
  - apply lifts_Attr.
  - apply lifts_End.
  - apply lifts_Instruct.
  - apply lifts_Instruct.
  - apply lifts_write.
  - by apply lifts_modify.
  - apply lifts_Chars.
  - apply lifts_CharsNoEscape.
  - apply lifts_Cdata.
  - by apply lifts_modify.
  - by apply lifts_modify.
  - apply lifts_outputElement.
Qed.

Lemma lifts_below_run cs :
  forallb content_call cs = true → lifts_below (run cs).
Proof.
  induction cs as [|c cs IH]; cbn [forallb run]; intros Hcs.
  - apply lifts_is_below, lifts_ret.
  - apply andb_true_iff in Hcs as [Hc Hcs].
    intros b Hb Hmax. unfold bind.
    destruct (lifts_below_exec c Hc b Hb Hmax) as [E I]. rewrite E.
    destruct (exec c b) as [[] b1|msg b1]; cbn [rmap].
    + pose proof (I tt b1 eq_refl) as Hi.
      destruct (IH Hcs b1) as [E' I']; [lia..|]. split; [done|].
      intros a b' Hr. rewrite (I' _ _ Hr). done.
    + split; [done|]. intros; discriminate.
Qed.

(** *** Entering an inline region *)

Lemma keeps_inline_ret {A} (a : A) : keeps_inline (ret a).
Proof. by intros b ?? [= _ <-]. Qed.

Lemma keeps_inline_panic {A} msg : keeps_inline (panic (A := A) msg).
Proof. intros b ??. discriminate. Qed.

Lemma keeps_inline_bind {A B} (m : Go A) (k : A → Go B) :
  keeps_inline m → (∀ a, keeps_inline (k a)) → keeps_inline (bind m k).
Proof.
  intros Hm Hk b c b'. unfold bind.
  destruct (m b) as [a b1|] eqn:E; [|done].
  intros Hr. rewrite (Hk _ _ _ _ Hr). by apply (Hm _ a).
Qed.

Lemma keeps_inline_get {A} (k : Builder → Go A) :
  (∀ b0, keeps_inline (k b0)) → keeps_inline (bind get k).
Proof. intros H b a b'. unfold bind, get. apply H. Qed.

Lemma keeps_inline_modify (f : Builder → Builder) :
  (∀ b, inline (f b) = inline b) → keeps_inline (modify f).
Proof. intros H b ?? [= _ <-]. apply H. Qed.

Lemma keeps_inline_doIndent : keeps_inline doIndent.
Proof.
  intros b a b' Hr. destruct (doIndent_state b) as [str Hst].
  rewrite Hr in Hst. cbn [state_of] in Hst. by rewrite Hst.
Qed.

Ltac keeps_inline_step :=
  lazymatch goal with
  | |- keeps_inline (ret _) => apply keeps_inline_ret
  | |- keeps_inline (panic _) => apply keeps_inline_panic
  | |- keeps_inline doIndent => apply keeps_inline_doIndent
  | |- keeps_inline (modify _) => apply keeps_inline_modify; done
  | |- keeps_inline (write _) => apply keeps_inline_modify; done
  | |- keeps_inline (index_last _) => unfold index_last
  | |- keeps_inline (slice_init _) => unfold slice_init
  | |- keeps_inline (bind get _) => refine (keeps_inline_get _ _); intros ?
  | |- keeps_inline (bind _ _) => refine (keeps_inline_bind _ _ _ _); [|intros ?]
  | |- keeps_inline (if ?c then _ else _) => destruct c
  | |- keeps_inline (match ?c with _ => _ end) => destruct c
  | |- keeps_inline (let _ := _ in _) => cbv zeta
  end.

Lemma outputElement_keeps_inline close : keeps_inline (outputElement close).
Proof. unfold outputElement. repeat keeps_inline_step. Qed.

Lemma Inline_depth b b1 :
  0 ≤ inline b → inline b + 1 ≤ maxInt →
  Inline b = Ok tt b1 → inline b1 = inline b + 1.
Proof.
  intros Hlo Hhi. unfold Inline. unfold bind at 1, get at 1. cbv beta iota.
  case_bool_decide as Hz.
  - unfold Flush, bind.
    destruct (outputElement false b) as [[] b2|] eqn:Hout; [|done].
    apply (outputElement_keeps_inline false) in Hout.
    unfold modify at 1. cbv beta iota.
    set (b3 := set_offset _ b2).
    destruct (doIndent_state b3) as [str Hst].
    destruct (doIndent b3) as [ind b4|]; [|done]. cbn [state_of] in Hst.
    unfold write, modify. intros [= <-]. subst b4 b3. setters.
    rewrite Hout, Hz. by rewrite wrap_small.
  - unfold bind, ret, modify. intros [= <-]. setters.
    by rewrite wrap_small by (unfold minInt, maxInt in *; lia).
Qed.

Lemma run_cons c cs b :
  run (c :: cs) b =
    match exec c b with
    | Ok _ b' => run cs b'
    | Panic msg b' => Panic msg b'
    end.
Proof. reflexivity. Qed.

Lemma run_nil b : run [] b = Ok tt b.
Proof. reflexivity. Qed.

Lemma run_app cs1 cs2 b : run (cs1 ++ cs2) b = (run cs1;; run cs2) b.
Proof.
  revert b. induction cs1 as [|c cs1 IH]; intros b; cbn [app run].
  - done.
  - unfold bind. destruct (exec c b) as [[] b1|]; [|done]. apply IH.
Qed.

Lemma up_down b : set_inline (inline (up b) - 1) (up b) = b.
Proof. unfold up. destruct b. setters. f_equal. lia. Qed.

(** What the second [Inline] changes in a run of content calls: nothing
    but the depth. *)
Lemma nested_region b cs :
  0 ≤ inline b → inline b + 3 ≤ maxInt →
  forallb content_call cs = true →
  ∀ b1, Inline b = Ok tt b1 →
        1 ≤ inline b1 ∧
        Inline b1 = Ok tt (up b1) ∧
        run cs (up b1) = rmap up (run cs b1) ∧
        ∀ b2, run cs b1 = Ok tt b2 →
              inline b2 = inline b + 1 ∧ EndInline (up b2) = Ok tt b2.
Proof.
  intros Hlo Hhi Hcs b1 Hin.
  pose proof (Inline_depth b b1 Hlo ltac:(lia) Hin) as Hd.
  destruct (lifts_below_run cs Hcs b1) as [E I]; [lia..|].
  split; [lia|]. split; [apply Inline_inside; lia|]. split; [exact E|].
  intros b2 Hrun. pose proof (I _ _ Hrun) as Hi. split; [lia|].
  rewrite EndInline_inside by (unfold up; setters; lia).
  by rewrite up_down.
Qed.

End OrderedProofs.

(** ** The variant of builder.go *)

Module ClassicProofs.
Import Classic.
Local Open Scope go_scope.

Ltac csetters :=
  unfold set_writer, set_buildingElement, set_attributes, set_elements,
    set_indentString, set_indent, set_offset, set_inline, set_pretty in *;
  cbn [writer buildingElement attributes elements indentString indent offset
       inline pretty] in *.

Lemma classic_set_indentString_same b : set_indentString (indentString b) b = b.
Proof. by destruct b. Qed.

Lemma classic_doIndent_plain b : pretty b = false → doIndent b = Ok "" b.
Proof. intros H. unfold doIndent, bind, get. by rewrite H. Qed.

Lemma classic_doIndent_ok b :
  pretty b = true → can_indent b →
  doIndent b = Ok (indentation b) (set_indentString (indentation b) b).
Proof.
  intros Hp [Hpos Hfit]. unfold doIndent, indentation, bind, get. rewrite Hp.
  cbn [negb]. case_bool_decide as Hlen.
  - unfold Repeat. rewrite bool_decide_eq_false_2 by lia.
    rewrite bool_decide_eq_false_2 by lia. reflexivity.
  - unfold ret. by rewrite classic_set_indentString_same.
Qed.



Lemma classic_doIndent_state b : ∃ str, state_of (doIndent b) = set_indentString str b.
Proof.
  unfold doIndent, bind, get, Repeat.
  destruct (pretty b); cbn [negb].
  - case_bool_decide.
    + repeat case_bool_decide; unfold panic, ret, modify; simpl;
        first [ by exists (indentString b); rewrite classic_set_indentString_same
              | by eexists ].
    + exists (indentString b). by rewrite classic_set_indentString_same.
  - exists (indentString b). by rewrite classic_set_indentString_same.
Qed.

Lemma classic_doIndent_writer b : writer (state_of (doIndent b)) = writer b.
Proof. by destruct (classic_doIndent_state b) as [str ->]. Qed.

(** *** [End] with no open element *)

Lemma End_empty_stack_classic range b :
  elements b = [] →
  ∃ msg b', End range b = Panic msg b' ∧ writer b' = writer b.
Proof.
  intros He. pose proof (classic_doIndent_writer b) as Hw.
  unfold End, outputElement, bind, get. cbv beta iota.
  destruct (buildingElement b) eqn:Hb; cbv beta iota; rewrite ?Hb; cbv beta iota.
  - destruct (doIndent b) as [ind st|msg st]; simpl in Hw.
    + rewrite He. unfold index_last, panic. simpl. eauto.
    + eauto.
  - destruct (inline b).
    + rewrite He. unfold index_last, panic. simpl. eauto.
    + destruct (doIndent b) as [ind st|msg st]; simpl in Hw.
      * rewrite He. unfold index_last, panic. simpl. eauto.
      * eauto.
Qed.

(** *** The leading odd argument of [Element] *)

Lemma classic_first_of_even (args : list value) :
  Nat.Even (length args) → first_of args = 0%nat.
Proof.
  intros [m Hm]. unfold first_of. rewrite Hm.
  replace (2 * m)%nat with (0 + m * 2)%nat by lia.
  by rewrite Nat.Div0.mod_add.
Qed.

Lemma classic_first_of_odd v (args : list value) :
  Nat.Even (length args) → first_of (v :: args) = 1%nat.
Proof.
  intros [m Hm]. unfold first_of. simpl length. rewrite Hm.
  replace (S (2 * m))%nat with (1 + m * 2)%nat by lia.
  by rewrite Nat.Div0.mod_add.
Qed.

Lemma Element_leading_classic range element v kvs b :
  Nat.Even (length kvs) →
  Element range element (v :: kvs) b
  = (Element range element kvs;; Chars range v) b.
Proof.
  intros Hev. unfold Element, open_element.
  rewrite (classic_first_of_odd v kvs Hev), (classic_first_of_even kvs Hev).
  rewrite bool_decide_eq_true_2 by done.
  rewrite (bool_decide_eq_false_2 (0 ≠ 0)%nat) by naive_solver.
  cbn [drop arg0]. unfold bind, ret, get. cbv beta iota.
  repeat case_match; congruence.
Qed.

(** *** The configuration mutators *)


Lemma Indent_twice_classic unit b : (Indent unit;; Indent unit) b = Indent unit b.
Proof. reflexivity. Qed.

Lemma Pretty_twice_classic enabled b : (Pretty enabled;; Pretty enabled) b = Pretty enabled b.
Proof. reflexivity. Qed.

Lemma classic_indentValue_small b :
  minInt + 1 ≤ len_slice (elements b) + offset b ≤ maxInt →
  indentValue b = len_slice (elements b) + offset b - 1.
Proof.
  intros H. unfold indentValue.
  rewrite (wrap_small (_ + _)) by lia.
  rewrite wrap_small; [done|]. unfold minInt, maxInt in *. lia.
Qed.

(** *** The filter of [outputElement] *)

Lemma render_entries_filter entries :
  render_entries entries = render_all (filter shown entries).
Proof.
  induction entries as [|[k v] rest IH]; [done|].
  cbn [render_entries]. rewrite filter_cons. unfold shown at 1. cbn [fst snd].
  destruct (decide (k ≠ "" ∧ v ≠ "")) as [[??]|Hn].
  - rewrite !bool_decide_eq_true_2 by done. cbn [andb render_all]. by rewrite IH.
  - rewrite IH.
    destruct (decide (k = "")) as [->|?].
    + by rewrite (bool_decide_eq_false_2 ("" ≠ "")) by naive_solver.
    + rewrite (bool_decide_eq_true_2 (k ≠ "")) by done.
      rewrite (bool_decide_eq_false_2 (v ≠ "")) by naive_solver. done.
Qed.

Lemma shown_entries range (m : gmap string string) :
  range_visits_all range →
  NoDup (filter shown (range m)) ∧
  ∀ k v, (k, v) ∈ filter shown (range m) ↔ m !! k = Some v ∧ k ≠ "" ∧ v ≠ "".
Proof.
  intros Hr. split.
  - apply NoDup_filter. rewrite (Hr m). apply NoDup_map_to_list.
  - intros k v. rewrite list_elem_of_filter, (Hr m), elem_of_map_to_list.
    unfold shown. cbn [fst snd]. tauto.
Qed.

Lemma classic_index_last_snoc (es : list string) name (b : Builder) :
  index_last (es ++ [name]) b = Ok name b.
Proof. unfold index_last. by rewrite last_snoc. Qed.

Lemma classic_slice_init_snoc (es : list string) name (b : Builder) :
  slice_init (es ++ [name]) b = Ok es b.
Proof.
  unfold slice_init. destruct (es ++ [name]) eqn:E.
  - by destruct es.
  - rewrite <- E. unfold ret. f_equal.
    rewrite length_app. simpl.
    replace (length es + 1 - 1)%nat with (length es) by lia.
    by rewrite take_app_length.
Qed.

Lemma classic_doIndent_result b :
  pretty b = false ∨ can_indent b →
  doIndent b = Ok (indentation b)
                  (set_indentString (if pretty b then indentation b else indentString b) b).
Proof.
  intros H. destruct (pretty b) eqn:Hp.
  - destruct H as [H|H]; [done|]. by apply classic_doIndent_ok.
  - rewrite classic_set_indentString_same, (classic_doIndent_plain b Hp).
    unfold indentation. by rewrite Hp.
Qed.

Lemma classic_outputElement_idle range close newline b :
  buildingElement b = false → outputElement range close newline b = Ok tt b.
Proof. intros H. unfold outputElement, bind, get. by rewrite H. Qed.

Lemma classic_outputElement_pending range close newline b es name :
  buildingElement b = true → elements b = es ++ [name] →
  pretty b = false ∨ can_indent b →
  outputElement range close newline b =
    Ok tt (mkBuilder
             (writer b +:+ start_tag range b name close newline)
             false ∅ (if close then es else elements b)
             (if pretty b then indentation b else indentString b)
             (indent b) (offset b) (inline b) (pretty b)).
Proof.
  intros Hb He Hi. unfold outputElement, start_tag, bind, get. rewrite Hb.
  assert (∀ st : Builder, index_last (elements b) st = Ok name st) as Hlast
    by (intros; rewrite He; apply classic_index_last_snoc).
  assert (∀ st : Builder, slice_init (elements b) st = Ok es st) as Hinit
    by (intros; rewrite He; apply classic_slice_init_snoc).
  rewrite (classic_doIndent_result b Hi), Hlast.
  destruct close; unfold modify, ret, write; cbn.
  - rewrite Hinit. csetters. by rewrite !string_app_assoc.
  - csetters. by rewrite !string_app_assoc.
Qed.

(** *** [Chars] *)

Lemma classic_indentation_cached b :
  pretty b = true → can_indent b →
  indentation (set_indentString (indentation b) b) = indentation b.
Proof.
  intros Hp [Hpos Hfit]. unfold indentation at 1. csetters. rewrite Hp. cbn [negb].
  change (indentValue (mkBuilder _ _ _ (elements b) _ _ (offset b) _ _))
    with (indentValue b).
  rewrite bool_decide_eq_false_2; [done|]. intros Hne. apply Hne. clear Hne.
  rewrite wrap_small
    by (pose proof (len_nonneg (indent b)); unfold minInt, maxInt in *; nia).
  unfold indentation. rewrite Hp. cbn [negb]. case_bool_decide as Hlen.
  - rewrite len_repeat_string, Z2Nat.id by done. lia.
  - rewrite Hlen. apply wrap_small.
    pose proof (len_nonneg (indent b)). unfold minInt, maxInt in *. nia.
Qed.



End ClassicProofs.

(** * The tests of the repository *)

Section Tests.
Local Open Scope go_scope.

Let output (m : Ordered.Go unit) : string := Ordered.writer (state_of (m Ordered.New)).

Example TestTag :
  output (Ordered.Tag "Joran" []) = "<Joran />" +:+ nl.
Proof. by vm_compute. Qed.

Example TestAttributes :
  output (Ordered.Tag "person" [VString "name"; VString "Joran"; VString "age"; VInt 40])
  = "<person" +:+ " name=" +:+ quote +:+ "Joran" +:+ quote +:+
    " age=" +:+ quote +:+ "40" +:+ quote +:+ " />" +:+ nl.
Proof. by vm_compute. Qed.

Example TestElementAttr :
  output (Ordered.Element "person" [];; Ordered.Attr "name" (VString "Joran");;
          Ordered.Attr "age" (VInt 40);; Ordered.End)
  = "<person" +:+ " name=" +:+ quote +:+ "Joran" +:+ quote +:+
    " age=" +:+ quote +:+ "40" +:+ quote +:+ " />" +:+ nl.
Proof. by vm_compute. Qed.

Example TestAttr :
  output (Ordered.Attr "age" (VInt 40);;
          Ordered.Element "person" [VString "name"; VString "Joran"];; Ordered.End)
  = "<person" +:+ " age=" +:+ quote +:+ "40" +:+ quote +:+
    " name=" +:+ quote +:+ "Joran" +:+ quote +:+ " />" +:+ nl.
Proof. by vm_compute. Qed.

Example ExampleInline :
  output (Ordered.Doctype "html";;
          Ordered.Element "ul" [];;
          Ordered.Inline;; Ordered.Element "li" [];;
          Ordered.Chars [VString "Hello "];; Ordered.Tag "b" [VString "there"];;
          Ordered.End;; Ordered.EndInline;;
          Ordered.End)
  = "<!DOCTYPE html>" +:+ nl +:+
    "<ul>" +:+ nl +:+
    "  <li>Hello <b>there</b></li>" +:+ nl +:+
    "</ul>" +:+ nl.
Proof. by vm_compute. Qed.

Example TestNotPretty_classic :
  Classic.writer (state_of
    ((Classic.Pretty false;; Classic.Element map_to_list "a" [];;
      Classic.Element map_to_list "b" [];; Classic.End map_to_list;;
      Classic.End map_to_list) Classic.New))
  = "<a><b /></a>".
Proof. by vm_compute. Qed.

(** [doIndent] compares lengths only: after [Indent] with a unit of the same
    length, a line at a depth already cached keeps the old indentation
    ([c] below), while the unit [Chars] appends is the new one. *)
Example stale_indentation :
  output (Ordered.Element "a" [];; Ordered.Indent "--";;
          Ordered.Element "b" [];; Ordered.End;;
          Ordered.Indent "++";;
          Ordered.Element "c" [];; Ordered.End;;
          Ordered.Chars [VString "t"];; Ordered.End)
  = "<a>" +:+ nl +:+ "--<b />" +:+ nl +:+ "--<c />" +:+ nl +:+
    "++t" +:+ nl +:+ "</a>" +:+ nl.
Proof. by vm_compute. Qed.

End Tests.

(** * Laws, invariants and whole elements *)

(** ** The escapers *)

Lemma occurs_app c s1 s2 : occurs c (s1 +:+ s2) = occurs c s1 || occurs c s2.
Proof.
  induction s1 as [|d s1 IH]; [done|].
  rewrite string_app_cons. cbn [occurs]. by rewrite IH, orb_assoc.
Qed.

Lemma replace_bytes_app f s1 s2 :
  replace_bytes f (s1 +:+ s2) = replace_bytes f s1 +:+ replace_bytes f s2.
Proof.
  induction s1 as [|d s1 IH]; [done|].
  rewrite string_app_cons. cbn [replace_bytes].
  by rewrite IH, string_app_assoc.
Qed.

Lemma occurs_replace_bytes c f str :
  (∀ d, occurs c (f d) = false) → occurs c (replace_bytes f str) = false.
Proof.
  intros Hf. induction str as [|d str IH]; [done|].
  cbn [replace_bytes]. by rewrite occurs_app, Hf, IH.
Qed.

Lemma occurs_attrEscaper_byte c d :
  c = dquote ∨ c = "<"%char ∨ c = ">"%char →
  occurs c (attrEscaper_byte d) = false.
Proof.
  intros Hc. unfold attrEscaper_byte.
  destruct (Ascii.eqb d "&") eqn:E1; [by destruct Hc as [->|[->| ->]]|].
  destruct (Ascii.eqb d "<") eqn:E2; [by destruct Hc as [->|[->| ->]]|].
  destruct (Ascii.eqb d ">") eqn:E3; [by destruct Hc as [->|[->| ->]]|].
  destruct (Ascii.eqb d dquote) eqn:E4; [by destruct Hc as [->|[->| ->]]|].
  cbn [occurs]. destruct Hc as [->|[->| ->]]; by rewrite ?E2, ?E3, ?E4.
Qed.

Lemma occurs_htmlEscaper_byte c d :
  c = "<"%char ∨ c = ">"%char → occurs c (htmlEscaper_byte d) = false.
Proof.
  intros Hc. unfold htmlEscaper_byte.
  destruct (Ascii.eqb d "&") eqn:E1; [by destruct Hc as [->| ->]|].
  destruct (Ascii.eqb d "<") eqn:E2; [by destruct Hc as [->| ->]|].
  destruct (Ascii.eqb d ">") eqn:E3; [by destruct Hc as [->| ->]|].
  cbn [occurs]. destruct Hc as [->| ->]; by rewrite ?E2, ?E3.
Qed.

(** X1. What the escapers write is safe where it is written: an escaped
    attribute value holds no double quote, no less-than and no
    greater-than sign, so it cannot end the quoted value or the tag; an
    escaped text holds no less-than and no greater-than sign, so it
    cannot open or close a tag. *)
Theorem escaped_output_is_safe str :
  (occurs dquote (attrEscaper str) = false ∧
   occurs "<" (attrEscaper str) = false ∧
   occurs ">" (attrEscaper str) = false) ∧
  (occurs "<" (htmlEscaper str) = false ∧
   occurs ">" (htmlEscaper str) = false).
Proof.
  unfold attrEscaper, htmlEscaper.
  repeat split; apply occurs_replace_bytes; intros d;
    first [ apply occurs_attrEscaper_byte | apply occurs_htmlEscaper_byte ];
    auto.
Qed.

Lemma clean_cons d rest :
  clean (String d rest)
  = negb (Ascii.eqb d "&") && negb (Ascii.eqb d "<") && negb (Ascii.eqb d ">")
    && clean rest.
Proof.
  unfold clean. cbn [occurs].
  destruct (Ascii.eqb d "&"), (Ascii.eqb d "<"), (Ascii.eqb d ">"),
    (occurs "&" rest), (occurs "<" rest), (occurs ">" rest); reflexivity.
Qed.

Lemma htmlEscaper_byte_clean d :
  Ascii.eqb d "&" = false → Ascii.eqb d "<" = false → Ascii.eqb d ">" = false →
  htmlEscaper_byte d = String d "".
Proof. intros H1 H2 H3. unfold htmlEscaper_byte. by rewrite H1, H2, H3. Qed.

Lemma htmlEscaper_clean str : clean str = true → htmlEscaper str = str.
Proof.
  unfold htmlEscaper. induction str as [|d str IH]; [done|].
  rewrite clean_cons, !andb_true_iff, !negb_true_iff.
  intros [[[H1 H2] H3] Hc]. cbn [replace_bytes].
  by rewrite htmlEscaper_byte_clean, IH.
Qed.

Lemma len_htmlEscaper_byte d :
  1 ≤ len (htmlEscaper_byte d) ∧
  (htmlEscaper_byte d = String d "" ∨ 4 ≤ len (htmlEscaper_byte d)).
Proof.
  unfold htmlEscaper_byte.
  destruct (Ascii.eqb d "&"); [by vm_compute; split; [|right]|].
  destruct (Ascii.eqb d "<"); [by vm_compute; split; [|right]|].
  destruct (Ascii.eqb d ">"); [by vm_compute; split; [|right]|].
  split; [by vm_compute|by left].
Qed.

Lemma len_htmlEscaper str :
  len str ≤ len (htmlEscaper str) ∧
  (clean str = false → len str < len (htmlEscaper str)).
Proof.
  unfold htmlEscaper. induction str as [|d str [IH1 IH2]].
  - split; [done|]. by vm_compute.
  - cbn [replace_bytes]. rewrite len_app.
    assert (len (String d str) = 1 + len str) as ->.
    { unfold len. cbn [String.length]. lia. }
    pose proof (len_htmlEscaper_byte d) as [Hb1 Hb2]. split; [lia|].
    rewrite clean_cons. intros Hc.
    destruct (clean str); [|specialize (IH2 eq_refl); lia].
    rewrite andb_true_r in Hc.
    destruct Hb2 as [Hb2|Hb2]; [|lia]. exfalso.
    unfold htmlEscaper_byte in Hb2.
    destruct (Ascii.eqb d "&"); [discriminate Hb2|].
    destruct (Ascii.eqb d "<"); [discriminate Hb2|].
    destruct (Ascii.eqb d ">"); [discriminate Hb2|]. discriminate Hc.
Qed.

Lemma htmlEscaper_not_clean str :
  clean str = false → clean (htmlEscaper str) = false.
Proof.
  unfold htmlEscaper. induction str as [|d str IH]; [done|].
  rewrite clean_cons. intros Hc. cbn [replace_bytes].
  assert (occurs "&" (htmlEscaper_byte d +:+ replace_bytes htmlEscaper_byte str)
          = true) as Hamp.
  { rewrite occurs_app, orb_true_iff.
    destruct (clean str) eqn:Hrest.
    - left. rewrite andb_true_r in Hc. unfold htmlEscaper_byte.
      destruct (Ascii.eqb d "&"); [done|].
      destruct (Ascii.eqb d "<"); [done|].
      destruct (Ascii.eqb d ">"); [done|]. discriminate Hc.
    - right. specialize (IH eq_refl). unfold clean in IH.
      rewrite (occurs_replace_bytes "<" htmlEscaper_byte),
        (occurs_replace_bytes ">" htmlEscaper_byte) in IH
        by (intros; apply occurs_htmlEscaper_byte; auto).
      by destruct (occurs "&" _). }
  unfold clean. by rewrite Hamp.
Qed.

(** X2. Escaping a text works byte by byte, so it distributes over
    concatenation; it leaves a text unchanged when the text holds no
    ampersand, less-than or greater-than sign; and escaping twice is the
    same as escaping once exactly for those texts: any other text is
    escaped again (there is no protection against double escaping). *)
Theorem htmlEscaper_laws :
  (∀ s1 s2, htmlEscaper (s1 +:+ s2) = htmlEscaper s1 +:+ htmlEscaper s2) ∧
  (∀ str, clean str = true → htmlEscaper str = str) ∧
  (∀ str, htmlEscaper (htmlEscaper str) = htmlEscaper str ↔ clean str = true).
Proof.
  split; [apply replace_bytes_app|]. split; [apply htmlEscaper_clean|].
  intros str. split.
  - intros Heq. destruct (clean str) eqn:Hc; [done|]. exfalso.
    pose proof (proj2 (len_htmlEscaper (htmlEscaper str))
                  (htmlEscaper_not_clean str Hc)) as Hlt.
    rewrite Heq in Hlt. lia.
  - intros Hc. by rewrite !(htmlEscaper_clean str Hc).
Qed.

Lemma htmlEscaper_laws_witness :
  htmlEscaper "Hello, world" = "Hello, world" ∧
  htmlEscaper (htmlEscaper "a&b") ≠ htmlEscaper "a&b".
Proof.
  destruct htmlEscaper_laws as (_ & Hid & Htwice). split.
  - by apply Hid.
  - intros Heq. apply Htwice in Heq. discriminate Heq.
Defined.

(** ** More on the order-preserving variant *)

Module OrderedMore.
Import Ordered OrderedProofs.
Local Open Scope go_scope.

(** *** [Attr], [Offset], [Instruct] *)

Lemma Attr_override_ordered name v1 v2 b :
  (Attr name v1;; Attr name v2) b = Attr name v2 b.
Proof.
  unfold Attr, bind, get, modify, ret. cbv beta iota.
  destruct (attributes b !! name) as [w|] eqn:Hw.
  - rewrite (bool_decide_eq_true_2 (is_Some (Some w))) by eauto.
    setters. rewrite lookup_insert_eq.
    rewrite (bool_decide_eq_true_2 (is_Some (Some _))) by eauto.
    setters. by rewrite insert_insert_eq.
  - rewrite (bool_decide_eq_false_2 (is_Some None)) by (by intros [? ?]).
    setters. rewrite lookup_insert_eq.
    rewrite (bool_decide_eq_true_2 (is_Some (Some _))) by eauto.
    setters. by rewrite insert_insert_eq.
Qed.

Lemma Attr_order_ordered n1 v1 n2 v2 b :
  n1 ≠ n2 → attributes b !! n1 = None → attributes b !! n2 = None →
  (Attr n1 v1;; Attr n2 v2) b ≠ (Attr n2 v2;; Attr n1 v1) b.
Proof.
  intros Hne H1 H2. unfold Attr, bind, get, modify, ret. cbv beta iota.
  rewrite H1, H2.
  rewrite !(bool_decide_eq_false_2 (is_Some None)) by (by intros [? ?]).
  setters. rewrite !lookup_insert_ne by done. rewrite H1, H2.
  rewrite !(bool_decide_eq_false_2 (is_Some None)) by (by intros [? ?]).
  setters. intros [= _ Hn].
  apply app_inj_tail in Hn as [_ Hn]. by symmetry in Hn.
Qed.

Lemma Offset_add_ordered d1 d2 b :
  (Offset d1;; Offset d2) b = Offset (d1 + d2) b.
Proof.
  unfold Offset, bind, modify. setters. do 2 f_equal.
  rewrite wrap_wrap_add. f_equal. lia.
Qed.

Lemma Offset_back_ordered d b :
  minInt ≤ offset b ≤ maxInt → (Offset d;; Offset (- d)) b = Ok tt b.
Proof.
  intros Hr. rewrite Offset_add_ordered. unfold Offset, modify.
  replace (offset b + (d + - d)) with (offset b) by lia.
  rewrite wrap_small by done. by destruct b.
Qed.





(** *** Flushing *)

Lemma ensures_bind {A B} Q (m : Go A) (k : A → Go B) :
  (∀ a, ensures Q (k a)) → ensures Q (bind m k).
Proof.
  intros Hk b c b'. unfold bind. destruct (m b) as [a b1|]; [|done]. apply Hk.
Qed.

Lemma ensures_modify Q (f : Builder → Builder) :
  (∀ b, Q (f b)) → ensures Q (modify f).
Proof. intros H b ?? [= _ <-]. apply H. Qed.

Lemma ensures_get_if {A} Q (c : Builder → bool) (m : Builder → Go A) (n : Go A) :
  (∀ b0, ensures Q (m b0)) →
  (∀ b a b', c b = false → n b = Ok a b' → Q b') →
  ensures Q (do b <- get; if c b then m b else n).
Proof.
  intros Hm Hn b a b'. unfold bind, get.
  destruct (c b) eqn:Hc; [apply Hm|by apply Hn].
Qed.

(** After [outputElement] nothing is pending. *)
Lemma outputElement_leaves_idle close :
  ensures (λ b, buildingElement b = false) (outputElement close).
Proof.
  unfold outputElement.
  refine (ensures_get_if _ buildingElement _ _ _ _).
  - intros b0. repeat (refine (ensures_bind _ _ _ _); intros ?). cbv zeta.
    repeat (refine (ensures_bind _ _ _ _); intros ?).
    by apply ensures_modify.
  - by intros b a b' Hc [= _ <-].
Qed.

(** A flush before a call that flushes changes nothing. *)
Lemma flush_absorbed {A} (k : Go A) b :
  (Flush;; outputElement false;; k) b = (outputElement false;; k) b.
Proof.
  unfold Flush.
  destruct (outputElement false b) as [[] b1|msg b1] eqn:E.
  - rewrite !(bind_Ok (outputElement false) _ b tt b1 E).
    by rewrite (bind_Ok (outputElement false) _ b1 tt b1
                  (outputElement_idle false b1 (outputElement_leaves_idle _ _ _ _ E))).
  - by rewrite !(bind_Panic (outputElement false) _ b msg b1 E).
Qed.

(** The test of [Element] before its flush is the test [outputElement]
    makes itself. *)
Lemma open_element_flushes element args b :
  open_element element args b
  = (outputElement false;;
     modify (set_buildingElement true);;
     modify (λ b, set_elements (elements b ++ [element]) b);;
     attr_loop (drop (first_of args) args)) b.
Proof.
  unfold open_element. unfold bind at 1, get at 1. cbv beta iota.
  destruct (buildingElement b) eqn:Hb; [done|].
  by rewrite (bind_Ok (outputElement false) _ b tt b (outputElement_idle false b Hb)).
Qed.

Lemma Flush_open_element element args b :
  (Flush;; open_element element args) b = open_element element args b.
Proof.
  unfold Flush.
  destruct (outputElement false b) as [[] b1|msg b1] eqn:E.
  - rewrite (bind_Ok (outputElement false) _ b tt b1 E).
    rewrite !open_element_flushes.
    rewrite (bind_Ok (outputElement false) _ b tt b1 E).
    by rewrite (bind_Ok (outputElement false) _ b1 tt b1
                  (outputElement_idle false b1 (outputElement_leaves_idle _ _ _ _ E))).
  - rewrite (bind_Panic (outputElement false) _ b msg b1 E).
    rewrite open_element_flushes.
    by rewrite (bind_Panic (outputElement false) _ b msg b1 E).
Qed.

Lemma Flush_bind_open_element {A} element args (k : Go A) b :
  (Flush;; open_element element args;; k) b = (open_element element args;; k) b.
Proof.
  pose proof (Flush_open_element element args b) as H.
  unfold bind in *. destruct (Flush b) as [[] b1|]; [by rewrite H|].
  by rewrite <- H.
Qed.

(** X6. [Flush] is absorbed by the calls that flush: flushing twice is
    flushing once, and a [Flush] just before [Element],
    [ElementNoEscape], [Chars], [CharsNoEscape] or [Cdata] changes neither
    the bytes written nor the final builder, from every state (a panic
    included).  ([End] is not among them: after a [Flush] it writes a
    closing tag instead of closing the start tag.) *)
Theorem Flush_is_absorbed b :
  (Flush;; Flush) b = Flush b ∧
  (∀ element args, (Flush;; Element element args) b = Element element args b) ∧
  (∀ element args,
     (Flush;; ElementNoEscape element args) b = ElementNoEscape element args b) ∧
  (∀ chars, (Flush;; Chars chars) b = Chars chars b) ∧
  (∀ chars, (Flush;; CharsNoEscape chars) b = CharsNoEscape chars b) ∧
  (∀ data, (Flush;; Cdata data) b = Cdata data b).
Proof.
  split; [|split; [|split; [|split; [|split]]]].
  - unfold Flush.
    destruct (outputElement false b) as [[] b1|msg b1] eqn:E.
    + rewrite (bind_Ok (outputElement false) _ b tt b1 E).
      apply outputElement_idle. by apply (outputElement_leaves_idle _ _ _ _ E).
    + by rewrite (bind_Panic (outputElement false) _ b msg b1 E).
  - intros element args. apply Flush_bind_open_element.
  - intros element args. apply Flush_bind_open_element.
  - intros chars. apply flush_absorbed.
  - intros chars. apply flush_absorbed.
  - intros data. apply flush_absorbed.
Qed.

(** *** Text without escaping, and CDATA *)

Lemma CharsNoEscape_clean chars b :
  clean (Sprint chars) = true → CharsNoEscape chars b = Chars chars b.
Proof.
  intros Hc. unfold CharsNoEscape, Chars. cbv zeta.
  by rewrite (htmlEscaper_clean _ Hc).
Qed.

(** X7. On a text with no ampersand, less-than or greater-than sign,
    the methods that do not escape agree with those that do, from every
    state: [CharsNoEscape] with [Chars], and, when the leading argument
    is such a text, [ElementNoEscape] with [Element] and [TagNoEscape]
    with [Tag]. *)
Theorem NoEscape_agrees_on_clean_text b :
  (∀ chars, clean (Sprint chars) = true → CharsNoEscape chars b = Chars chars b) ∧
  (∀ element v args,
     clean (format v) = true →
     ElementNoEscape element (v :: args) b = Element element (v :: args) b) ∧
  (∀ element v args,
     clean (format v) = true →
     TagNoEscape element (v :: args) b = Tag element (v :: args) b).
Proof.
  assert (∀ element v args st,
            clean (format v) = true →
            ElementNoEscape element (v :: args) st = Element element (v :: args) st)
    as Helem.
  { intros element v args st Hc. unfold ElementNoEscape, Element, bind.
    destruct (open_element element (v :: args) st) as [[] b1|]; [|done].
    case_bool_decide; [|done]. cbn [arg0]. unfold ret.
    apply CharsNoEscape_clean. by rewrite Sprint_single. }
  split; [intros; by apply CharsNoEscape_clean|]. split; [intros; by apply Helem|].
  intros element v args Hc. unfold TagNoEscape, Tag, bind.
  destruct (Inline b) as [[] b1|]; [|done]. by rewrite Helem.
Qed.

Lemma NoEscape_agrees_on_clean_text_witness :
  TagNoEscape "b" [VString "there"] New = Tag "b" [VString "there"] New.
Proof.
  by apply (proj2 (proj2 (NoEscape_agrees_on_clean_text New))).
Defined.

(** X8. [Cdata] is [CharsNoEscape] on the data wrapped in the CDATA
    markers: the same flush, the same layout (alone inside an inline
    region; indented one unit deeper and followed by a line feed in block
    mode), the same outcome from every state.  The data itself is written
    as it is, a CDATA end marker inside it included. *)
Theorem Cdata_is_CharsNoEscape data b :
  Cdata data b
  = CharsNoEscape [VString ("<![CDATA[" +:+ Sprint data +:+ "]]>")] b.
Proof.
  unfold Cdata, CharsNoEscape. cbv zeta. rewrite Sprint_single. cbn [format].
  unfold bind. destruct (outputElement false b) as [[] b1|]; [|done].
  unfold get. cbv beta iota. case_bool_decide; [done|].
  destruct (doIndent b1) as [ind b2|]; [|done].
  unfold write, modify. by rewrite !string_app_assoc.
Qed.

(** *** The invariant *)

Lemma preserves_ret {A} P (a : A) : preserves P (ret a).
Proof. by intros b Hb. Qed.

Lemma preserves_panic {A} P msg : preserves P (panic (A := A) msg).
Proof. by intros b Hb. Qed.

Lemma preserves_bind {A B} P (m : Go A) (k : A → Go B) :
  preserves P m → (∀ a, preserves P (k a)) → preserves P (bind m k).
Proof.
  intros Hm Hk b Hb. unfold bind. specialize (Hm b Hb).
  destruct (m b) as [a b1|msg b1]; [by apply Hk|done].
Qed.

Lemma preserves_get {A} P (k : Builder → Go A) :
  (∀ b0, preserves P (k b0)) → preserves P (bind get k).
Proof. intros Hk b Hb. unfold bind, get. by apply Hk. Qed.

Lemma preserves_modify P (f : Builder → Builder) :
  (∀ b, P b → P (f b)) → preserves P (modify f).
Proof. intros Hf b Hb. by apply Hf. Qed.

Lemma preserves_doIndent P :
  (∀ str b, P b → P (set_indentString str b)) → preserves P doIndent.
Proof. intros HP b Hb. destruct (doIndent_state b) as [str ->]. by apply HP. Qed.

Lemma preserves_index_last P es : preserves P (index_last es).
Proof. unfold index_last. destruct (last es); by intros b Hb. Qed.

Lemma preserves_slice_init P es : preserves P (slice_init es).
Proof. unfold slice_init. destruct es; by intros b Hb. Qed.

Ltac preserves_step :=
  lazymatch goal with
  | |- preserves _ (ret _) => apply preserves_ret
  | |- preserves _ (panic _) => apply preserves_panic
  | |- preserves _ (modify _) => apply preserves_modify; by intros ? ?
  | |- preserves _ (write _) => apply preserves_modify; by intros ? ?
  | |- preserves _ doIndent => apply preserves_doIndent; by intros ? ? ?
  | |- preserves _ (index_last _) => apply preserves_index_last
  | |- preserves _ (slice_init _) => apply preserves_slice_init
  | |- preserves _ (bind get _) => refine (preserves_get _ _ _); intros ?
  | |- preserves _ (bind _ _) => refine (preserves_bind _ _ _ _ _); [|intros ?]
  | |- preserves _ (if ?c then _ else _) => destruct c
  | |- preserves _ (let _ := _ in _) => cbv zeta
  end.

Lemma well_formed_reset b :
  buildingElement b = false → attributes b = ∅ → attrnames b = [] → well_formed b.
Proof.
  intros Hb Ha Hn. split; [by rewrite Hb|]. rewrite Ha, Hn.
  split; [constructor|]. intros n. rewrite lookup_empty, elem_of_nil.
  split; [done|by intros [? ?]].
Qed.

Lemma outputElement_well_formed close : preserves well_formed (outputElement close).
Proof.
  intros b Hwf. unfold outputElement, bind, get.
  destruct (buildingElement b) eqn:Hb; [|done].
  assert (∃ str, state_of ((if bool_decide (inline b = 0) then doIndent else ret "") b)
                 = set_indentString str b) as [str Hst].
  { case_bool_decide; [apply doIndent_state|].
    exists (indentString b). by rewrite set_indentString_same. }
  destruct ((if bool_decide (inline b = 0) then doIndent else ret "") b)
    as [ind b1|msg b1]; cbn [state_of] in Hst; subst b1; [|done].
  unfold index_last. destruct (last (elements b)) as [name|] eqn:Hl; [|done].
  unfold ret, modify. cbv beta iota zeta.
  destruct close; [|by apply well_formed_reset].
  unfold slice_init. setters.
  destruct (elements b) as [|e es]; [done|].
  cbv beta iota. by apply well_formed_reset.
Qed.

Lemma Attr_well_formed name v : preserves well_formed (Attr name v).
Proof.
  intros b (Hb & Hnd & Hk). unfold Attr, bind, get, modify, ret.
  case_bool_decide as Hf; cbv beta iota; cbn [state_of]; unfold well_formed; setters.
  - split; [done|]. split; [done|]. intros n. rewrite Hk.
    destruct (decide (n = name)) as [->|Hne];
      [by rewrite lookup_insert_eq|by rewrite lookup_insert_ne].
  - split; [done|]. split.
    + apply NoDup_app. split; [done|]. split; [|apply NoDup_singleton].
      intros n Hn ->%list_elem_of_singleton. by apply Hf, Hk.
    + intros n. rewrite elem_of_app, list_elem_of_singleton, Hk.
      destruct (decide (n = name)) as [->|Hne].
      * rewrite lookup_insert_eq. split; [eauto|by right].
      * rewrite lookup_insert_ne by done. split; [by intros [|]|by left].
Qed.

Lemma attr_loop_well_formed : ∀ args, preserves well_formed (attr_loop args).
Proof.
  fix IH 1. intros [|k [|v rest]]; cbn [attr_loop].
  - apply preserves_ret.
  - apply preserves_panic.
  - apply preserves_bind; [|intros _; apply IH].
    destruct (keeps k v); [apply Attr_well_formed|apply preserves_ret].
Qed.

Lemma open_element_well_formed element args :
  preserves well_formed (open_element element args).
Proof.
  intros b Hwf. unfold open_element. unfold bind at 1 2, get.
  assert (well_formed
            (state_of ((if buildingElement b then outputElement false else ret tt) b)))
    as Hfirst.
  { destruct (buildingElement b); [by apply outputElement_well_formed|done]. }
  destruct ((if buildingElement b then outputElement false else ret tt) b)
    as [[] b1|msg b1]; [|done]. cbn [state_of] in Hfirst.
  unfold bind, modify. apply attr_loop_well_formed.
  destruct Hfirst as (_ & Hnd & Hk). unfold well_formed. setters.
  split; [|done]. intros _ Hnil. by apply app_eq_nil in Hnil as [_ ?].
Qed.

Ltac preserves_wf :=
  repeat first
    [ apply outputElement_well_formed
    | apply Attr_well_formed
    | apply open_element_well_formed
    | preserves_step ].

Lemma Chars_well_formed chars : preserves well_formed (Chars chars).
Proof. unfold Chars. preserves_wf. Qed.

Lemma CharsNoEscape_well_formed chars : preserves well_formed (CharsNoEscape chars).
Proof. unfold CharsNoEscape. preserves_wf. Qed.

Lemma Cdata_well_formed data : preserves well_formed (Cdata data).
Proof. unfold Cdata. preserves_wf. Qed.

Lemma arg0_well_formed args : preserves well_formed (arg0 args).
Proof. destruct args; [apply preserves_panic|apply preserves_ret]. Qed.

Lemma Element_well_formed element args : preserves well_formed (Element element args).
Proof.
  unfold Element. apply preserves_bind; [apply open_element_well_formed|intros _].
  case_bool_decide; [|apply preserves_ret].
  apply preserves_bind; [apply arg0_well_formed|intros v; apply Chars_well_formed].
Qed.

Lemma ElementNoEscape_well_formed element args :
  preserves well_formed (ElementNoEscape element args).
Proof.
  unfold ElementNoEscape. apply preserves_bind; [apply open_element_well_formed|intros _].
  case_bool_decide; [|apply preserves_ret].
  apply preserves_bind; [apply arg0_well_formed|intros v; apply CharsNoEscape_well_formed].
Qed.

Lemma End_well_formed : preserves well_formed End.
Proof.
  intros b Hwf. unfold End. unfold bind at 1, get.
  destruct (buildingElement b) eqn:Hb; [by apply outputElement_well_formed|].
  cut (preserves (λ b, well_formed b ∧ buildingElement b = false)
         ((if bool_decide (0 < inline b) then
             do name <- index_last (elements b);
             write ("</" +:+ name +:+ ">")
           else
             do ind <- doIndent;
             do name <- index_last (elements b);
             write (ind +:+ "</" +:+ name +:+ ">" +:+ nl));;
          do b <- get;
          do es <- slice_init (elements b);
          modify (set_elements es))).
  { intros H. by apply (H b). }
  repeat preserves_step.
  apply preserves_modify. intros b1 [(_ & Hnd & Hk) Hidle].
  unfold well_formed. setters. by rewrite Hidle.
Qed.

Lemma Inline_well_formed : preserves well_formed Inline.
Proof. unfold Inline, Flush. preserves_wf. Qed.

Lemma EndInline_well_formed : preserves well_formed EndInline.
Proof. unfold EndInline. preserves_wf. Qed.

Lemma instruct_loop_well_formed : ∀ args, preserves well_formed (instruct_loop args).
Proof.
  fix IH 1. intros [|k [|v rest]]; cbn [instruct_loop].
  - apply preserves_ret.
  - apply preserves_panic.
  - apply preserves_bind; [preserves_step|intros _; apply IH].
Qed.

Lemma exec_well_formed c : preserves well_formed (exec c).
Proof.
  destruct c; cbn [exec];
    unfold Tag, TagNoEscape, Instruct, InstructXML, Instruct, Doctype, Offset,
      Indent, Empty, Flush;
    repeat first
      [ apply Inline_well_formed | apply EndInline_well_formed
      | apply Element_well_formed | apply ElementNoEscape_well_formed
      | apply End_well_formed | apply Chars_well_formed
      | apply CharsNoEscape_well_formed | apply Cdata_well_formed
      | apply instruct_loop_well_formed
      | apply outputElement_well_formed | apply Attr_well_formed
      | preserves_step ].
Qed.

Lemma run_well_formed : ∀ cs, preserves well_formed (run cs).
Proof.
  induction cs as [|c cs IH]; cbn [run]; [apply preserves_ret|].
  apply preserves_bind; [apply exec_well_formed|intros _; apply IH].
Qed.

(** A flush in a well-formed builder does not fail on the element stack. *)
Lemma outputElement_panics close b msg b' :
  well_formed b → outputElement close b = Panic msg b' →
  inline b = 0 ∧ (msg = msg_repeat ∨ msg = msg_overflow).
Proof.
  intros (Hb & _) H. revert H. unfold outputElement, bind, get.
  destruct (buildingElement b) eqn:Hbe; [|done]. specialize (Hb eq_refl).
  case_bool_decide as Hi.
  - destruct (doIndent b) as [ind b1|m b1] eqn:Hd.
    + assert (elements b1 = elements b) as He.
      { destruct (doIndent_state b) as [str Hs]. rewrite Hd in Hs.
        cbn [state_of] in Hs. by rewrite Hs. }
      unfold index_last. destruct (last (elements b)) as [name|] eqn:Hl;
        [|by apply last_None in Hl].
      unfold ret, modify. cbv beta iota zeta. destruct close; [|done].
      unfold slice_init. destruct (elements b); done.
    + intros [= -> ->]. split; [done|]. revert Hd.
      unfold doIndent, bind, get, Repeat. repeat case_bool_decide; try done.
      * intros [= <- _]. by left.
      * intros [= <- _]. by right.
  - unfold ret at 1. unfold index_last.
    destruct (last (elements b)) as [name|] eqn:Hl; [|by apply last_None in Hl].
    unfold ret, modify. cbv beta iota zeta. destruct close; [|done].
    unfold slice_init. destruct (elements b); done.
Qed.

(** X9. The builder keeps its invariant: a pending element is on the
    element stack, and [attrnames] lists the names of the pending
    attributes, each once.  It holds for a new builder and after every
    sequence of calls, whether the sequence returns or panics.  With it, a
    flush finds the element it writes: it can only fail where it indents,
    in [strings.Repeat], and not at all inside an inline region. *)
Theorem builder_invariant :
  well_formed New ∧
  (∀ cs b, well_formed b → well_formed (state_of (run cs b))) ∧
  (∀ close b msg b',
     well_formed b → outputElement close b = Panic msg b' →
     inline b = 0 ∧ (msg = msg_repeat ∨ msg = msg_overflow)).
Proof.
  split; [by apply well_formed_reset|].
  split; [intros cs b; apply run_well_formed|].
  intros close b msg b'. apply outputElement_panics.
Qed.

Lemma builder_invariant_witness :
  well_formed
    (state_of (run [CElement "a" [VString "k"; VString "v"]; CAttr "k" (VInt 1);
                    CChars [VString "text"]; CEnd; CEnd] New)).
Proof.
  apply (proj1 (proj2 builder_invariant)). by apply well_formed_reset.
Defined.

(** *** Whole elements *)

Lemma element_opened b pre element pairs calls :
  buildingElement b = false → buffer_of pre b →
  ∃ m l,
    (Element element (flat_pairs pairs);; attr_calls calls) b
    = Ok tt (set_attributes m (set_attrnames l
               (set_elements (elements b ++ [element]) (set_buildingElement true b)))) ∧
    buffer_of (pre ++ effective pairs ++ bindings calls)
      (set_attributes m (set_attrnames l
         (set_elements (elements b ++ [element]) (set_buildingElement true b)))).
Proof.
  intros Hb Hpre.
  unfold Element, open_element.
  rewrite (first_of_even _ (length_flat_pairs pairs)).
  rewrite (bool_decide_eq_false_2 (0 ≠ 0)%nat) by naive_solver.
  rewrite drop_0. unfold bind at 1 2 3 4 5 6. unfold get at 1. cbv beta iota.
  rewrite Hb. unfold ret at 1, modify at 1 2. cbv beta iota.
  set (b1 := set_elements _ _).
  assert (buffer_of pre b1) as Hpre1 by (destruct Hpre; by split).
  destruct (attr_loop_buffer pairs pre b1 Hpre1) as (m & l & HL & Hb2).
  rewrite HL. unfold ret at 1. cbv beta iota.
  destruct (attr_calls_buffer calls _ _ Hb2) as (m' & l' & HC & Hb3).
  rewrite set_buffer_twice in HC, Hb3.
  exists m', l'. split; [done|]. by rewrite app_assoc.
Qed.

Lemma sane_shift b b' :
  sane b → elements b' = elements b → offset b' = wrap (offset b + 1) →
  indent b' = indent b → indentString b' = indentString b →
  can_indent b' ∧ ∀ element, indentation b' = indentation (set_elements (elements b ++ [element]) b).
Proof.
  intros (Ho & He & Hi) Hes Hoff Hind Hstr.
  assert (0 ≤ len_slice (elements b)) by (unfold len_slice; lia).
  assert (offset b' = offset b + 1) as Hoff'.
  { rewrite Hoff. apply wrap_small. unfold minInt, maxInt. lia. }
  assert (indentValue b' = len_slice (elements b) + offset b) as Hv.
  { rewrite indentValue_small; rewrite Hes, Hoff'; unfold minInt, maxInt; lia. }
  split.
  - unfold can_indent. rewrite Hv, Hind. pose proof (len_nonneg (indent b)).
    unfold maxInt. nia.
  - intros element. unfold indentation. setters.
    assert (indentValue (set_elements (elements b ++ [element]) b)
            = len_slice (elements b) + offset b) as Hv'.
    { assert (len_slice (elements b ++ [element]) = len_slice (elements b) + 1)
        as Hlen by (unfold len_slice; rewrite length_app; simpl; lia).
      rewrite indentValue_small; setters; rewrite Hlen;
        unfold minInt, maxInt; lia. }
    unfold set_elements in Hv'. by rewrite Hv, Hv', Hind, Hstr.
Qed.

Lemma Inline_block b :
  buildingElement b = false → inline b = 0 → sane b →
  ∀ element,
    let ind := indentation (set_elements (elements b ++ [element]) b) in
    Inline b = Ok tt (set_inline 1 (set_writer (writer b +:+ ind)
                                      (set_indentString ind b))).
Proof.
  intros Hb Hi Hsane element ind. unfold Inline. unfold bind at 1 2, get.
  rewrite (bool_decide_eq_true_2 _ Hi). unfold Flush.
  rewrite (bind_Ok (outputElement false) _ b tt b (outputElement_idle false b Hb)).
  unfold bind at 1. unfold modify at 1. cbv beta iota.
  set (b1 := set_offset _ b).
  destruct (sane_shift b b1 Hsane eq_refl eq_refl eq_refl eq_refl) as [Hcan Hind].
  rewrite (bind_Ok doIndent _ b1 _ _ (doIndent_ok b1 Hcan)).
  rewrite (Hind element). fold ind.
  unfold bind, write, modify. subst b1. setters.
  destruct Hsane as (Ho & _).
  rewrite (wrap_small (offset b + 1)) by (unfold minInt, maxInt; lia).
  replace (offset b + 1 - 1) with (offset b) by lia.
  rewrite (wrap_small (offset b)) by (unfold minInt, maxInt; lia).
  rewrite Hi. by change (wrap (0 + 1)) with 1.
Qed.

Lemma Chars_idle_inline vs b :
  buildingElement b = false → 0 < inline b →
  Chars vs b = Ok tt (set_writer (writer b +:+ htmlEscaper (Sprint vs)) b).
Proof.
  intros Hb Hi. unfold Chars.
  rewrite (bind_Ok (outputElement false) _ b tt b (outputElement_idle false b Hb)).
  cbv zeta. unfold bind, get. by rewrite (bool_decide_eq_true_2 _ Hi).
Qed.




Lemma indentation_same b b' :
  indentString b' = indentString b → indent b' = indent b →
  elements b' = elements b → offset b' = offset b →
  indentation b' = indentation b.
Proof.
  intros Hs Hi He Ho. unfold indentation, indentValue. by rewrite Hs, Hi, He, Ho.
Qed.

Lemma element_closed b pre element pairs calls :
  buildingElement b = false → buffer_of pre b → sane b →
  let bs := pre ++ effective pairs ++ bindings calls in
  let ind := indentation (set_elements (elements b ++ [element]) b) in
  (Element element (flat_pairs pairs);; attr_calls calls;; End) b =
    Ok tt (mkBuilder
             (writer b +:+
              (if bool_decide (inline b = 0) then ind else "") +:+
              "<" +:+ element +:+ render_pairs (merged bs) +:+
              (if empty b then " />" else ">") +:+
              (if bool_decide (inline b = 0) then nl else ""))
             false ∅ [] (elements b)
             (if bool_decide (inline b = 0) then ind else indentString b)
             (indent b) (offset b) (empty b) (inline b)).
Proof.
  intros Hb Hpre Hsane bs ind.
  destruct (element_opened b pre element pairs calls Hb Hpre)
    as (m & l & Hopen & Hbuf).
  set (b3 := set_attributes m _) in *.
  transitivity (((Element element (flat_pairs pairs);; attr_calls calls);; End) b).
  { by rewrite bind_assoc. }
  rewrite (bind_Ok _ _ b tt b3 Hopen).
  unfold End, bind at 1, get. change (buildingElement b3) with true. cbv iota.
  rewrite (outputElement_pending true b3 (elements b) element); try done.
  - unfold start_tag. by rewrite (render_attrs_buffer _ _ Hbuf).
  - right. by apply (sane_can_indent b b3 element).
Qed.

Lemma Chars_flushes vs b : Chars vs b = (Flush;; Chars vs) b.
Proof. unfold Chars. symmetry. apply flush_absorbed. Qed.



Lemma element_closed_at_once b pre element pairs :
  buildingElement b = false → buffer_of pre b → sane b →
  let attrs := render_pairs (merged (pre ++ effective pairs)) in
  let ind := indentation (set_elements (elements b ++ [element]) b) in
  (Element element (flat_pairs pairs);; End) b =
    Ok tt (mkBuilder
             (writer b +:+
              (if bool_decide (inline b = 0) then ind else "") +:+
              "<" +:+ element +:+ attrs +:+
              (if empty b then " />" else ">") +:+
              (if bool_decide (inline b = 0) then nl else ""))
             false ∅ [] (elements b)
             (if bool_decide (inline b = 0) then ind else indentString b)
             (indent b) (offset b) (empty b) (inline b)).
Proof.
  intros Hb Hpre Hsane attrs ind.
  pose proof (element_closed b pre element pairs [] Hb Hpre Hsane) as H.
  cbv zeta in H. cbn [bindings fmap list_fmap] in H. rewrite app_nil_r in H.
  exact H.
Qed.

Lemma Tag_pairs_block b pre element pairs :
  buildingElement b = false → buffer_of pre b → sane b → inline b = 0 →
  let attrs := render_pairs (merged (pre ++ effective pairs)) in
  let ind := indentation (set_elements (elements b ++ [element]) b) in
  Tag element (flat_pairs pairs) b
  = Ok tt (mkBuilder
             (writer b +:+ ind +:+ "<" +:+ element +:+ attrs +:+
              (if empty b then " />" else ">") +:+ nl)
             false ∅ [] (elements b) ind (indent b) (offset b) (empty b) 0).
Proof.
  intros Hb Hpre Hsane Hi attrs ind. unfold Tag.
  rewrite (bind_Ok Inline _ b tt _ (Inline_block b Hb Hi Hsane element)).
  fold ind. set (b1 := set_inline 1 _).
  assert (buffer_of pre b1) as Hpre1 by (destruct Hpre; by split).
  rewrite <- bind_assoc.
  rewrite (bind_Ok _ _ b1 tt _
             (element_closed_at_once b1 pre element pairs Hb Hpre1 Hsane)).
  fold attrs. change (inline b1) with 1.
  rewrite !(bool_decide_eq_false_2 (1 = 0)) by done.
  rewrite EndInline_outermost by done.
  subst b1. setters. by rewrite !string_app_nil_l, !string_app_assoc.
Qed.


Lemma Chars_concat_inline vs1 vs2 b :
  0 < inline b →
  (Chars vs1;; Chars vs2) b = Chars [VString (Sprint vs1 +:+ Sprint vs2)] b.
Proof.
  intros Hi. unfold bind at 1. rewrite !(Chars_flushes _ b). unfold Flush.
  destruct (outputElement false b) as [[] b1|msg b1] eqn:E.
  - rewrite !(bind_Ok (outputElement false) _ b tt b1 E).
    assert (buildingElement b1 = false) as Hb1
      by exact (outputElement_leaves_idle _ _ _ _ E).
    assert (0 < inline b1) as Hi1
      by (rewrite (outputElement_keeps_inline _ _ _ _ E); exact Hi).
    rewrite (Chars_idle_inline vs1 b1 Hb1 Hi1).
    rewrite (Chars_idle_inline [VString (Sprint vs1 +:+ Sprint vs2)] b1 Hb1 Hi1).
    rewrite (Chars_idle_inline vs2 (set_writer _ b1) Hb1 Hi1). setters.
    rewrite Sprint_single. cbn [format]. unfold htmlEscaper.
    by rewrite replace_bytes_app, string_app_assoc.
  - by rewrite !(bind_Panic (outputElement false) _ b msg b1 E).
Qed.





(** X12. From a builder in block mode with nothing pending, [Tag] with
    key/value pairs only is [Element] with the same arguments followed by
    [End]: the same bytes and the same builder afterwards. *)
Theorem Tag_without_text_is_Element_End b pre element pairs :
  buildingElement b = false → buffer_of pre b → sane b → inline b = 0 →
  Tag element (flat_pairs pairs) b = (Element element (flat_pairs pairs);; End) b.
Proof.
  intros Hb Hpre Hsane Hi.
  rewrite (Tag_pairs_block b pre element pairs Hb Hpre Hsane Hi).
  rewrite (element_closed_at_once b pre element pairs Hb Hpre Hsane).
  rewrite !(bool_decide_eq_true_2 _ Hi). by rewrite Hi.
Qed.

Lemma Tag_without_text_is_Element_End_witness :
  Tag "br" [VString "class"; VString "x"] New
  = (Element "br" [VString "class"; VString "x"];; End) New.
Proof.
  apply (Tag_without_text_is_Element_End New [] "br" [(VString "class", VString "x")]).
  - reflexivity.
  - by apply buffer_of_nil.
  - unfold sane. vm_compute. repeat split; congruence.
  - reflexivity.
Defined.



(** X14. Inside an inline region consecutive texts are written one after
    the other with nothing between them: two [Chars] calls are one, on the
    texts joined. *)
Theorem Chars_joins_inside_inline vs1 vs2 b :
  0 < inline b →
  (Chars vs1;; Chars vs2) b = Chars [VString (Sprint vs1 +:+ Sprint vs2)] b.
Proof. apply Chars_concat_inline. Qed.

Lemma Chars_joins_inside_inline_witness :
  (Chars [VString "a"; VInt 1];; Chars [VString "<"])
    (set_inline 1 New)
  = Chars [VString "a1<"] (set_inline 1 New).
Proof. by apply (Chars_joins_inside_inline [VString "a"; VInt 1] [VString "<"]). Defined.

(** *** What the attributes look like in the tag *)

Lemma render_pairs_literal l :
  render_pairs l
  = foldr (λ p acc, " " +:+ p.1 +:+ "=" +:+ quote +:+ attrEscaper p.2 +:+ quote +:+ acc)
      "" l.
Proof.
  induction l as [|[k v] l IH]; [done|].
  cbn [render_pairs foldr fst snd]. unfold render_attr. rewrite IH.
  by rewrite !string_app_assoc.
Qed.

Lemma first_seen_NoDup names : NoDup names → first_seen names = names.
Proof.
  induction 1 as [|n l Hn Hl IH]; [done|].
  cbn [first_seen]. rewrite IH. by rewrite filter_ne_absent.
Qed.

(** A well-formed builder holds a buffer of bindings. *)
Lemma well_formed_buffer b : well_formed b → ∃ pre, buffer_of pre b.
Proof.
  intros (_ & Hnd & Hk).
  exists ((λ n, (n, default "" (attributes b !! n))) <$> attrnames b).
  assert (((λ n, (n, default "" (attributes b !! n))) <$> attrnames b).*1
          = attrnames b) as Hfst.
  { rewrite <- list_fmap_compose. by rewrite list_fmap_id. }
  split.
  - rewrite Hfst. by rewrite first_seen_NoDup.
  - intros n. destruct (attributes b !! n) as [v|] eqn:Hv.
    + assert (n ∈ attrnames b) as Hin by (apply Hk; rewrite Hv; eauto).
      symmetry. apply last_value_Some.
      apply list_elem_of_split in Hin as (l1 & l2 & Hl).
      exists ((λ n, (n, default "" (attributes b !! n))) <$> l1),
             ((λ n, (n, default "" (attributes b !! n))) <$> l2).
      split.
      * rewrite Hl, fmap_app, fmap_cons. by rewrite Hv.
      * rewrite <- list_fmap_compose, list_fmap_id.
        rewrite Hl in Hnd. apply NoDup_app in Hnd as (_ & _ & Hnd).
        by apply NoDup_cons in Hnd as [? _].
    + symmetry. destruct (last_value n _) as [w|] eqn:Hw; [|done].
      assert (is_Some (last_value n
                ((λ n, (n, default "" (attributes b !! n))) <$> attrnames b)))
        as Hs by (rewrite Hw; eauto).
      apply last_value_is_Some in Hs. rewrite Hfst in Hs.
      apply Hk in Hs. rewrite Hv in Hs. by destruct Hs.
Qed.

(** *** The cache of [doIndent] *)










(** *** A negative repeat count in block mode *)


(** *** The configuration and the next output *)




Lemma merged_carries pre name sv eff :
  name ∈ (merged (pre ++ (name, sv) :: eff)).*1 ∧
  (name ∉ eff.*1 → (name, sv) ∈ merged (pre ++ (name, sv) :: eff)) ∧
  ∃ w rest, merged ((name, sv) :: eff) = (name, w) :: rest.
Proof.
  split; [|split].
  - rewrite merged_names, elem_of_first_seen, fmap_app, fmap_cons.
    rewrite elem_of_app. right. by left.
  - intros Hn. unfold merged. apply list_elem_of_fmap. exists name. split.
    + assert (last_value name (pre ++ (name, sv) :: eff) = Some sv) as ->; [|done].
      apply last_value_Some. by exists pre, eff.
    + rewrite elem_of_first_seen, fmap_app, fmap_cons.
      rewrite elem_of_app. right. by left.
  - unfold merged. cbn [fmap list_fmap fst first_seen]. by eexists _, _.
Qed.

(** *** [Attr] before [Element] *)

Lemma Attr_then_element b pre name v element pairs :
  buildingElement b = false → buffer_of pre b → sane b →
  ∃ b', (Attr name v;; Element element (flat_pairs pairs);; Flush) b = Ok tt b' ∧
        writer b' =
          writer b +:+
          (if bool_decide (inline b = 0)
           then indentation (set_elements (elements b ++ [element]) b) else "") +:+
          "<" +:+ element +:+
          render_pairs (merged (pre ++ (name, s [v]) :: effective pairs)) +:+
          ">" +:+ (if bool_decide (inline b = 0) then nl else "").
Proof.
  intros Hb Hpre Hsane.
  destruct (Attr_buffer pre b name v Hpre) as (m & l & HA & Hbuf).
  rewrite (bind_Ok _ _ b tt _ HA).
  set (b1 := set_attributes m _) in *.
  pose proof (element_bindings b1 (pre ++ [(name, s [v])]) element pairs []
                Hb Hbuf Hsane) as H.
  cbv zeta in H. cbn [bindings fmap list_fmap attr_calls] in H.
  rewrite app_nil_r, <- app_assoc in H. cbn [app] in H.
  assert (∀ st, (Element element (flat_pairs pairs);; Flush) st
                = (Element element (flat_pairs pairs);; ret tt;; Flush) st) as Heq.
  { intros st. unfold bind, ret.
    by destruct (Element element (flat_pairs pairs) st). }
  rewrite Heq, H. eexists. split; [done|]. cbn [writer].
  change (inline b1) with (inline b). change (writer b1) with (writer b).
  by rewrite (indentation_same (set_elements (elements b ++ [element]) b)
                (set_elements (elements b1 ++ [element]) b1)).
Qed.

End OrderedMore.

(** ** More on the variant of builder.go *)

Module ClassicMore.
Import Classic ClassicProofs.
Local Open Scope go_scope.

Lemma Attr_override_classic name v1 v2 b :
  (Attr name v1;; Attr name v2) b = Attr name v2 b.
Proof.
  unfold Attr, bind, modify. csetters. by rewrite insert_insert_eq.
Qed.

Lemma Attr_commute_classic n1 v1 n2 v2 b :
  n1 ≠ n2 →
  (Attr n1 v1;; Attr n2 v2) b = (Attr n2 v2;; Attr n1 v1) b.
Proof.
  intros Hne. unfold Attr, bind, modify. csetters.
  by rewrite insert_insert_ne.
Qed.

Lemma Offset_add_classic d1 d2 b :
  (Offset d1;; Offset d2) b = Offset (d1 + d2) b.
Proof.
  unfold Offset, bind, modify. csetters. do 2 f_equal.
  rewrite wrap_wrap_add. f_equal. lia.
Qed.

Lemma Offset_back_classic d b :
  minInt ≤ offset b ≤ maxInt → (Offset d;; Offset (- d)) b = Ok tt b.
Proof.
  intros Hr. rewrite Offset_add_classic. unfold Offset, modify.
  replace (offset b + (d + - d)) with (offset b) by lia.
  rewrite wrap_small by done. by destruct b.
Qed.





(** *** Whole elements *)

Section Whole.
Variable range : gmap string string → list (string * string).

Lemma classic_attr_loop_pairs pairs : ∀ b,
  attr_loop (Ordered.flat_pairs pairs) b
  = Ok tt (set_attributes (set_pairs pairs (attributes b)) b).
Proof.
  induction pairs as [|[k v] rest IH]; intros b;
    cbn [Ordered.flat_pairs attr_loop set_pairs].
  - unfold ret. by destruct b.
  - unfold bind, modify. rewrite IH. by csetters.
Qed.

Lemma classic_element_opened element pairs b :
  buildingElement b = false →
  Element range element (Ordered.flat_pairs pairs) b
  = Ok tt (set_attributes (set_pairs pairs (attributes b))
             (set_elements (elements b ++ [element]) (set_buildingElement true b))).
Proof.
  intros Hb. unfold Element, open_element.
  rewrite (classic_first_of_even _ (OrderedProofs.length_flat_pairs pairs)).
  rewrite (bool_decide_eq_false_2 (0 ≠ 0)%nat) by naive_solver.
  rewrite drop_0. unfold bind at 1 2 3 4 5. unfold get at 1. cbv beta iota.
  rewrite Hb. unfold ret at 1, modify at 1 2. cbv beta iota.
  rewrite classic_attr_loop_pairs. unfold ret. by csetters.
Qed.

Lemma classic_sane_can_indent b b' element :
  sane b → elements b' = elements b ++ [element] →
  offset b' = offset b → indent b' = indent b → can_indent b'.
Proof.
  intros (Ho & He & Hi) Hes Hoff Hind. unfold can_indent.
  assert (len_slice (elements b') = len_slice (elements b) + 1) as Hlen.
  { unfold len_slice. rewrite Hes, length_app. simpl. lia. }
  assert (0 ≤ len_slice (elements b)) by (unfold len_slice; lia).
  rewrite classic_indentValue_small by (unfold minInt, maxInt; lia).
  rewrite Hlen, Hoff, Hind. pose proof (len_nonneg (indent b)).
  unfold maxInt. nia.
Qed.

Lemma classic_indentation_same b b' :
  indentString b' = indentString b → indent b' = indent b →
  elements b' = elements b → offset b' = offset b → pretty b' = pretty b →
  indentation b' = indentation b.
Proof.
  intros Hs Hi He Ho Hp. unfold indentation, indentValue.
  by rewrite Hs, Hi, He, Ho, Hp.
Qed.

Lemma classic_indentation_settled X b' :
  pretty X = true → can_indent X →
  indentString b' = indentation X → indent b' = indent X →
  elements b' = elements X → offset b' = offset X → pretty b' = true →
  indentation b' = indentation X ∧ can_indent b'.
Proof.
  intros Hp Hcan Hs Hi He Ho Hp'. split.
  - rewrite <- (classic_indentation_cached X Hp Hcan).
    apply classic_indentation_same; [done|done|done|done|].
    rewrite Hp'. symmetry. exact Hp.
  - unfold can_indent, indentValue in *. by rewrite Hi, He, Ho.
Qed.

(** [Chars] on a pending element: the start tag is written, then the
    text as on a builder with nothing pending. *)
Lemma classic_Chars_pending b es name v :
  buildingElement b = true → elements b = es ++ [name] →
  pretty b = false ∨ can_indent b →
  Chars range v b
  = Chars range v
      (mkBuilder
         (writer b +:+ start_tag range b name false (pretty b && negb (inline b)))
         false ∅ (elements b)
         (if pretty b then indentation b else indentString b)
         (indent b) (offset b) (inline b) (pretty b)).
Proof.
  intros Hb He Hcan. unfold Chars at 1. unfold bind at 1, get at 1. cbv beta iota.
  rewrite (bind_Ok _ _ b tt _
             (classic_outputElement_pending range false _ b es name Hb He Hcan)).
  symmetry. unfold Chars. unfold bind at 1, get at 1. cbv beta iota.
  lazymatch goal with
  | |- bind (outputElement range false ?nw) _ ?st = _ =>
      by rewrite (bind_Ok _ _ st tt st
                    (classic_outputElement_idle range false nw st eq_refl))
  end.
Qed.

Lemma classic_Chars_idle b v :
  buildingElement b = false → pretty b = false ∨ can_indent b →
  Chars range v b
  = Ok tt (if inline b || negb (pretty b)
           then set_writer (writer b +:+ htmlEscaper (s v)) b
           else set_writer (writer b +:+ indentation b +:+ indent b +:+
                            htmlEscaper (s v) +:+ nl)
                  (set_indentString (indentation b) b)).
Proof.
  intros Hb Hcan. unfold Chars. unfold bind at 1, get at 1. cbv beta iota.
  rewrite (bind_Ok _ _ b tt b (classic_outputElement_idle range false _ b Hb)).
  unfold bind at 1, get at 1. cbv beta iota.
  destruct (inline b || negb (pretty b)) eqn:Hmode; [done|].
  rewrite (bind_Ok doIndent _ b _ _ (classic_doIndent_result b Hcan)).
  assert (pretty b = true) as -> by (by destruct (pretty b), (inline b)).
  by unfold bind, get, write, modify.
Qed.

Lemma classic_End_idle b es name :
  buildingElement b = false → elements b = es ++ [name] →
  pretty b = false ∨ can_indent b →
  End range b
  = Ok tt (set_elements es
             (set_writer (writer b +:+ (if inline b then "" else indentation b) +:+
                          "</" +:+ name +:+ ">" +:+ (if pretty b then nl else ""))
                (if inline b then b
                 else set_indentString
                        (if pretty b then indentation b else indentString b) b))).
Proof.
  intros Hb He Hcan. unfold End. unfold bind at 1, get at 1. cbv beta iota zeta.
  rewrite Hb, He. destruct (inline b) eqn:Hi.
  - unfold bind at 1 2. rewrite classic_index_last_snoc. unfold write, modify.
    unfold bind, get. csetters. rewrite He, classic_slice_init_snoc.
    unfold modify. csetters. rewrite Hi. by destruct (pretty b).
  - unfold bind at 1 2. rewrite (classic_doIndent_result b Hcan).
    unfold bind at 1. rewrite classic_index_last_snoc. unfold write, modify.
    unfold bind, get. csetters. rewrite He, classic_slice_init_snoc.
    unfold modify. csetters. rewrite Hi. destruct (pretty b); by rewrite ?string_app_assoc.
Qed.

Ltac cfields :=
  unfold set_writer, set_buildingElement, set_attributes, set_elements,
    set_indentString, set_indent, set_offset, set_inline, set_pretty;
  cbn [writer buildingElement attributes elements indentString indent offset
       inline pretty].

Lemma classic_opened_can_indent b b' element :
  pretty b = false ∨ sane b → pretty b' = pretty b →
  elements b' = elements b ++ [element] →
  offset b' = offset b → indent b' = indent b →
  pretty b' = false ∨ can_indent b'.
Proof.
  intros [Hp|Hs] Hp' He Ho Hi; [left; by rewrite Hp'|right].
  by apply (classic_sane_can_indent b b' element).
Qed.

Lemma classic_element_closed b element pairs :
  buildingElement b = false → pretty b = false ∨ sane b →
  let attrs := render_entries (range (set_pairs pairs (attributes b))) in
  let ind := indentation (set_elements (elements b ++ [element]) b) in
  (Element range element (Ordered.flat_pairs pairs);; End range) b
  = Ok tt (mkBuilder
             (writer b +:+ ind +:+ "<" +:+ element +:+ attrs +:+ " />" +:+
              (if pretty b then nl else ""))
             false ∅ (elements b)
             (if pretty b then ind else indentString b)
             (indent b) (offset b) (inline b) (pretty b)).
Proof.
  intros Hb Hcan attrs ind.
  rewrite (bind_Ok _ _ b tt _ (classic_element_opened element pairs b Hb)).
  set (b3 := set_attributes _ _).
  assert (pretty b3 = false ∨ can_indent b3) as Hcan3
    by by apply (classic_opened_can_indent b b3 element).
  unfold End. unfold bind at 1, get at 1. cbv beta iota.
  change (buildingElement b3) with true. cbv iota.
  rewrite (classic_outputElement_pending range true _ b3 (elements b) element
             eq_refl eq_refl Hcan3).
  unfold start_tag. subst b3. cfields. fold attrs.
  assert (indentation
            (set_attributes (set_pairs pairs (attributes b))
               (set_elements (elements b ++ [element]) (set_buildingElement true b)))
          = ind) as Hind by by apply classic_indentation_same.
  unfold set_attributes, set_elements, set_buildingElement in Hind.
  cbn [writer buildingElement attributes elements indentString indent offset
       inline pretty] in Hind.
  rewrite Hind. by rewrite ?string_app_assoc.
Qed.

Lemma classic_Tag_pairs b element pairs :
  buildingElement b = false → pretty b = false ∨ sane b → inline b = false →
  Tag range element (Ordered.flat_pairs pairs) b
  = (Element range element (Ordered.flat_pairs pairs);; End range) b.
Proof.
  intros Hb Hcan Hi. unfold Tag. unfold bind at 1, modify at 1.
  rewrite <- bind_assoc.
  rewrite (bind_Ok _ _ _ tt _
             (classic_element_closed (set_inline true b) element pairs Hb Hcan)).
  rewrite (classic_element_closed b element pairs Hb Hcan).
  unfold modify. cfields. by rewrite Hi.
Qed.

(** The state after [Element] with a leading text, before [End]. *)
Lemma classic_element_text b element v pairs :
  buildingElement b = false → pretty b = false ∨ sane b →
  let attrs := render_entries (range (set_pairs pairs (attributes b))) in
  let ind := indentation (set_elements (elements b ++ [element]) b) in
  let plain := inline b || negb (pretty b) in
  Element range element (v :: Ordered.flat_pairs pairs) b
  = Ok tt (mkBuilder
             (writer b +:+ ind +:+ "<" +:+ element +:+ attrs +:+ ">" +:+
              (if plain then htmlEscaper (format v)
               else nl +:+ ind +:+ indent b +:+ htmlEscaper (format v) +:+ nl))
             false ∅ (elements b ++ [element])
             (if pretty b then ind else indentString b)
             (indent b) (offset b) (inline b) (pretty b)).
Proof.
  intros Hb Hcan attrs ind plain.
  rewrite (Element_leading_classic range element v _ b
             (OrderedProofs.length_flat_pairs pairs)).
  rewrite (bind_Ok _ _ b tt _ (classic_element_opened element pairs b Hb)).
  set (b3 := set_attributes _ _).
  assert (pretty b3 = false ∨ can_indent b3) as Hcan3
    by by apply (classic_opened_can_indent b b3 element).
  assert (indentation b3 = ind) as Hind3 by by apply classic_indentation_same.
  rewrite (classic_Chars_pending b3 (elements b) element v eq_refl eq_refl Hcan3).
  unfold start_tag. rewrite Hind3. subst b3. cfields. fold attrs.
  lazymatch goal with
  | |- Chars range v ?st = _ =>
      assert (pretty st = false ∨ can_indent st) as Hcan4
        by (by apply (classic_opened_can_indent b st element));
      assert (pretty b = true → indentation st = ind) as Hind4;
      [|rewrite (classic_Chars_idle st v eq_refl Hcan4)]
  end.
  { intros Hp.
    assert (can_indent (set_elements (elements b ++ [element]) b)) as HcanX.
    { destruct Hcan as [Hf|Hs]; [congruence|].
      by apply (classic_sane_can_indent b _ element). }
    apply (classic_indentation_settled
             (set_elements (elements b ++ [element]) b) _ Hp HcanX);
      [cbn [indentString]; by rewrite Hp|done|done|done|exact Hp]. }
  cfields. subst plain. destruct (inline b || negb (pretty b)) eqn:Hplain; cfields.
  - assert (pretty b && negb (inline b) = false) as ->
      by (by destruct (pretty b), (inline b)).
    unfold s. by rewrite !string_app_assoc, string_app_nil_l.
  - assert (pretty b = true) as Hp by (by destruct (pretty b), (inline b)).
    assert (inline b = false) as Hi by (by destruct (inline b)).
    rewrite (Hind4 Hp), Hp, Hi. unfold s. cbn [andb negb].
    by rewrite !string_app_assoc.
Qed.

Lemma classic_element_text_closed b element v pairs :
  buildingElement b = false → pretty b = false ∨ sane b →
  let attrs := render_entries (range (set_pairs pairs (attributes b))) in
  let ind := indentation (set_elements (elements b ++ [element]) b) in
  let plain := inline b || negb (pretty b) in
  (Element range element (v :: Ordered.flat_pairs pairs);; End range) b
  = Ok tt (mkBuilder
             (writer b +:+ ind +:+ "<" +:+ element +:+ attrs +:+ ">" +:+
              (if plain then htmlEscaper (format v)
               else nl +:+ ind +:+ indent b +:+ htmlEscaper (format v) +:+ nl) +:+
              (if inline b then "" else ind) +:+
              "</" +:+ element +:+ ">" +:+ (if pretty b then nl else ""))
             false ∅ (elements b)
             (if pretty b then ind else indentString b)
             (indent b) (offset b) (inline b) (pretty b)).
Proof.
  intros Hb Hcan attrs ind plain.
  rewrite (bind_Ok _ _ b tt _ (classic_element_text b element v pairs Hb Hcan)).
  fold attrs ind plain.
  lazymatch goal with
  | |- End range ?st = _ =>
      assert (pretty st = false ∨ can_indent st) as Hcan5
        by (by apply (classic_opened_can_indent b st element));
      assert (indentation st = ind) as Hind5;
      [|rewrite (classic_End_idle st (elements b) element eq_refl eq_refl Hcan5)]
  end.
  { destruct (pretty b) eqn:Hp.
    - assert (can_indent (set_elements (elements b ++ [element]) b)) as HcanX.
      { destruct Hcan as [Hf|Hs]; [congruence|].
        by apply (classic_sane_can_indent b _ element). }
      by apply (classic_indentation_settled
                  (set_elements (elements b ++ [element]) b) _ Hp HcanX).
    - subst ind. unfold indentation. cfields. by rewrite Hp. }
  rewrite Hind5. cfields.
  destruct (inline b), (pretty b); cfields;
    by rewrite ?string_app_assoc, ?string_app_nil_l.
Qed.

Lemma classic_Tag_text b element v pairs :
  buildingElement b = false → pretty b = false ∨ sane b →
  let attrs := render_entries (range (set_pairs pairs (attributes b))) in
  let ind := indentation (set_elements (elements b ++ [element]) b) in
  Tag range element (v :: Ordered.flat_pairs pairs) b
  = Ok tt (mkBuilder
             (writer b +:+ ind +:+ "<" +:+ element +:+ attrs +:+ ">" +:+
              htmlEscaper (format v) +:+
              "</" +:+ element +:+ ">" +:+ (if pretty b then nl else ""))
             false ∅ (elements b)
             (if pretty b then ind else indentString b)
             (indent b) (offset b) false (pretty b)).
Proof.
  intros Hb Hcan attrs ind. unfold Tag. unfold bind at 1, modify at 1.
  rewrite <- bind_assoc.
  rewrite (bind_Ok _ _ _ tt _
             (classic_element_text_closed (set_inline true b) element v pairs
                Hb Hcan)).
  unfold modify. cfields. cbn [orb]. fold attrs.
  assert (indentation (set_elements (elements b ++ [element]) (set_inline true b))
          = ind) as Hind by by apply classic_indentation_same.
  unfold set_elements, set_inline in Hind.
  cbn [writer buildingElement attributes elements indentString indent offset
       inline pretty] in Hind.
  rewrite Hind. by rewrite ?string_app_nil_l.
Qed.


(** X16. builder.go: from a builder with nothing pending, [Tag] with
    key/value pairs only is [Element] with the same arguments followed by
    [End], one self-closing tag, whether pretty printing is on or off.
    With pretty printing off the same holds with a leading text: start
    tag, escaped text and closing tag are written with no white space
    between or after them. *)
Theorem classic_Tag_is_Element_End b element :
  buildingElement b = false → inline b = false → pretty b = false ∨ sane b →
  (∀ pairs,
     Tag range element (Ordered.flat_pairs pairs) b
     = (Element range element (Ordered.flat_pairs pairs);; End range) b ∧
     Tag range element (Ordered.flat_pairs pairs) b
     = Ok tt (mkBuilder
                (writer b +:+
                 indentation (set_elements (elements b ++ [element]) b) +:+
                 "<" +:+ element +:+
                 render_entries (range (set_pairs pairs (attributes b))) +:+
                 " />" +:+ (if pretty b then nl else ""))
                false ∅ (elements b)
                (if pretty b
                 then indentation (set_elements (elements b ++ [element]) b)
                 else indentString b)
                (indent b) (offset b) false (pretty b))) ∧
  (pretty b = false →
   ∀ v pairs,
     Tag range element (v :: Ordered.flat_pairs pairs) b
     = (Element range element (v :: Ordered.flat_pairs pairs);; End range) b ∧
     Tag range element (v :: Ordered.flat_pairs pairs) b
     = Ok tt (mkBuilder
                (writer b +:+ "<" +:+ element +:+
                 render_entries (range (set_pairs pairs (attributes b))) +:+
                 ">" +:+ htmlEscaper (format v) +:+ "</" +:+ element +:+ ">")
                false ∅ (elements b) (indentString b)
                (indent b) (offset b) false false)).
Proof.
  intros Hb Hi Hcan. split.
  - intros pairs. rewrite (classic_Tag_pairs b element pairs Hb Hcan Hi).
    split; [done|].
    rewrite (classic_element_closed b element pairs Hb Hcan). by rewrite Hi.
  - intros Hp v pairs.
    rewrite (classic_Tag_text b element v pairs Hb Hcan).
    rewrite (classic_element_text_closed b element v pairs Hb Hcan).
    assert (indentation (set_elements (elements b ++ [element]) b) = "") as ->.
    { unfold indentation. cfields. by rewrite Hp. }
    rewrite Hp, Hi. cbn [orb negb].
    by rewrite !string_app_nil_l, ?string_app_nil_r.
Qed.

End Whole.


Lemma classic_Tag_is_Element_End_witness :
  Tag map_to_list "b" [VString "x&y"; VString "id"; VInt 1] (set_pretty false New)
  = (Element map_to_list "b" [VString "x&y"; VString "id"; VInt 1];;
     End map_to_list) (set_pretty false New).
Proof.
  exact (proj1 (proj2 (classic_Tag_is_Element_End map_to_list (set_pretty false New)
                         "b" eq_refl eq_refl (or_introl eq_refl))
                  eq_refl (VString "x&y") [(VString "id", VInt 1)])).
Defined.

(** *** What the attributes look like in the tag *)

Lemma render_all_literal l :
  render_all l
  = foldr (λ p acc, " " +:+ p.1 +:+ "=" +:+ quote +:+ attrEscaper p.2 +:+ quote +:+ acc)
      "" l.
Proof.
  induction l as [|[k v] l IH]; [done|].
  cbn [render_all foldr fst snd]. unfold render_attr. rewrite IH.
  by rewrite !string_app_assoc.
Qed.

(** *** The cache of [doIndent] *)















(** *** The configuration and the next output *)





(** *** [Attr] before [Element] *)

Lemma set_pairs_other pairs : ∀ m name,
  (∀ p, p ∈ pairs → s p.1 ≠ name) → set_pairs pairs m !! name = m !! name.
Proof.
  induction pairs as [|[k v] rest IH]; intros m name H; cbn [set_pairs]; [done|].
  rewrite IH by (intros p Hp; apply H; by right).
  rewrite lookup_insert_ne; [done|]. apply (H (k, v)). by left.
Qed.

Lemma classic_Attr_carried range c name v element pairs :
  buildingElement c = false → pretty c = false ∨ sane c →
  ∃ b', (Attr name v;; Element range element (Ordered.flat_pairs pairs);;
         End range) c = Ok tt b' ∧
        writer b' =
          writer c +:+ indentation (set_elements (elements c ++ [element]) c) +:+
          "<" +:+ element +:+
          render_entries
            (range (set_pairs pairs (<[name := s v]> (attributes c)))) +:+
          " />" +:+ (if pretty c then nl else "").
Proof.
  intros Hb Hcan. unfold Attr. unfold bind at 1, modify at 1.
  pose proof (classic_element_closed range
                (set_attributes (<[name:=s v]> (attributes c)) c) element pairs
                Hb Hcan) as H.
  cbv zeta in H. rewrite H.
  eexists. split; [done|]. cbn [writer].
  by erewrite (classic_indentation_same (set_elements _ c)).
Qed.

End ClassicMore.

(** ** Laws of the two variants *)

Section Both.
Local Open Scope go_scope.

(** X3. Of two [Attr] calls in a row with the same name only the second
    counts, in both variants.  In builder.go, where the attributes are a
    map only, two calls with different names can be swapped; in the
    order-preserving variant they cannot when neither name is pending yet:
    the call order is the order of the attributes. *)
Theorem Attr_laws :
  (∀ name v1 v2 (b : Ordered.Builder),
     (Ordered.Attr name v1;; Ordered.Attr name v2) b = Ordered.Attr name v2 b) ∧
  (∀ name v1 v2 (b : Classic.Builder),
     (Classic.Attr name v1;; Classic.Attr name v2) b = Classic.Attr name v2 b) ∧
  (∀ n1 v1 n2 v2 (b : Classic.Builder),
     n1 ≠ n2 →
     (Classic.Attr n1 v1;; Classic.Attr n2 v2) b
     = (Classic.Attr n2 v2;; Classic.Attr n1 v1) b) ∧
  (∀ n1 v1 n2 v2 (b : Ordered.Builder),
     n1 ≠ n2 →
     Ordered.attributes b !! n1 = None → Ordered.attributes b !! n2 = None →
     (Ordered.Attr n1 v1;; Ordered.Attr n2 v2) b
     ≠ (Ordered.Attr n2 v2;; Ordered.Attr n1 v1) b).
Proof.
  split; [apply OrderedMore.Attr_override_ordered|].
  split; [apply ClassicMore.Attr_override_classic|].
  split; [apply ClassicMore.Attr_commute_classic|].
  apply OrderedMore.Attr_order_ordered.
Qed.

Lemma Attr_laws_witness :
  (Classic.Attr "a" (VString "1");; Classic.Attr "b" (VString "2")) Classic.New
  = (Classic.Attr "b" (VString "2");; Classic.Attr "a" (VString "1")) Classic.New ∧
  (Ordered.Attr "a" (VString "1");; Ordered.Attr "b" (VString "2")) Ordered.New
  ≠ (Ordered.Attr "b" (VString "2");; Ordered.Attr "a" (VString "1")) Ordered.New.
Proof.
  split.
  - by apply (proj1 (proj2 (proj2 Attr_laws))).
  - by apply (proj2 (proj2 (proj2 Attr_laws))).
Defined.

(** X4. [Offset] acts additively: two calls are one call with the sum of
    the deltas, in both variants, and a call followed by the call with the
    opposite delta leaves a builder whose offset is an [int] as it was. *)
Theorem Offset_laws :
  (∀ d1 d2 (b : Ordered.Builder),
     (Ordered.Offset d1;; Ordered.Offset d2) b = Ordered.Offset (d1 + d2) b) ∧
  (∀ d (b : Ordered.Builder),
     minInt ≤ Ordered.offset b ≤ maxInt →
     (Ordered.Offset d;; Ordered.Offset (- d)) b = Ok tt b) ∧
  (∀ d1 d2 (b : Classic.Builder),
     (Classic.Offset d1;; Classic.Offset d2) b = Classic.Offset (d1 + d2) b) ∧
  (∀ d (b : Classic.Builder),
     minInt ≤ Classic.offset b ≤ maxInt →
     (Classic.Offset d;; Classic.Offset (- d)) b = Ok tt b).
Proof.
  split; [apply OrderedMore.Offset_add_ordered|].
  split; [apply OrderedMore.Offset_back_ordered|].
  split; [apply ClassicMore.Offset_add_classic|].
  apply ClassicMore.Offset_back_classic.
Qed.

Lemma Offset_laws_witness :
  (Ordered.Offset 3;; Ordered.Offset (- 3)) Ordered.New = Ok tt Ordered.New ∧
  (Classic.Offset 3;; Classic.Offset (- 3)) Classic.New = Ok tt Classic.New.
Proof.
  split.
  - apply (proj1 (proj2 Offset_laws)). by vm_compute.
  - apply (proj2 (proj2 (proj2 Offset_laws))). by vm_compute.
Defined.


End Both.

(** * The claims *)

Section Claims.
Local Open Scope go_scope.

(** ** C2: [End] with no open element *)

(** C2. In both variants, for every builder whose stack of open elements
    is empty, [End] ends in a run-time panic (Go's bounds check on
    [b.elements[len(b.elements)-1]], or the panic of [strings.Repeat] in
    [doIndent], whichever comes first), and the sink holds what it held
    before the call: nothing is written. *)
Theorem End_on_empty_stack :
  (∀ b : Ordered.Builder,
     Ordered.elements b = [] →
     ∃ msg b', Ordered.End b = Panic msg b' ∧ Ordered.writer b' = Ordered.writer b) ∧
  (∀ range (b : Classic.Builder),
     Classic.elements b = [] →
     ∃ msg b', Classic.End range b = Panic msg b' ∧ Classic.writer b' = Classic.writer b).
Proof.
  split.
  - apply OrderedProofs.End_empty_stack_ordered.
  - apply ClassicProofs.End_empty_stack_classic.
Qed.

Lemma End_on_empty_stack_witness :
  (∃ msg b', Ordered.End Ordered.New = Panic msg b' ∧ Ordered.writer b' = "") ∧
  (∃ msg b', Classic.End map_to_list Classic.New = Panic msg b' ∧ Classic.writer b' = "").
Proof.
  split.
  - exact (proj1 End_on_empty_stack Ordered.New eq_refl).
  - exact (proj2 End_on_empty_stack map_to_list Classic.New eq_refl).
Defined.

(** ** C8: [Tag] is a composite *)

(** C8. For every element name, argument list and builder, [Tag] has the
    outcome of the sequence [Inline], [Element], [End], [EndInline] run
    from the same builder: the same bytes in the sink, the same final
    state, and a panic at the same point if there is one. *)
Theorem Tag_is_the_composition element args (b : Ordered.Builder) :
  Ordered.Tag element args b = Ordered.Tag_spec element args b ∧
  Ordered.run [Ordered.CTag element args] b =
    Ordered.run [Ordered.CInline; Ordered.CElement element args;
                 Ordered.CEnd; Ordered.CEndInline] b.
Proof.
  unfold Ordered.Tag_spec, Ordered.Tag. cbn [Ordered.run Ordered.exec].
  unfold Ordered.Tag, bind, ret.
  split.
  - destruct (Ordered.Inline b) as [[] b1|]; [|done].
    destruct (Ordered.Element element args b1) as [[] b2|]; [|done].
    destruct (Ordered.End b2) as [[] b3|]; [|done].
    by destruct (Ordered.EndInline b3) as [[] b4|].
  - destruct (Ordered.Inline b) as [[] b1|]; [|done].
    destruct (Ordered.Element element args b1) as [[] b2|]; [|done].
    destruct (Ordered.End b2) as [[] b3|]; [|done].
    by destruct (Ordered.EndInline b3) as [[] b4|].
Qed.

(** ** C6: the odd argument of [Element] *)

(** C6, as stated, fails: the last argument of an odd argument list is not
    the character content.  [Element("e", "a", "b", "c")] writes the text
    [a] in an element with the attribute [b="c"], not the text [c] in an
    element with the attribute [a="b"]. *)
Lemma Element_trailing_argument_is_not_the_content :
  ¬ (∀ element kvs v (b : Ordered.Builder),
       Nat.Even (length kvs) →
       Ordered.Element element (kvs ++ [v]) b
       = (Ordered.Element element kvs;; Ordered.Chars [v]) b).
Proof.
  intros H.
  specialize (H "e" [VString "a"; VString "b"] (VString "c") Ordered.New).
  assert (Nat.Even 2) as He by (by exists 1%nat). specialize (H He).
  vm_compute in H. discriminate H.
Qed.

(** C6 (amended). For every call of [Element] with an odd number of
    arguments, the first argument is the character content, escaped and
    emitted by [Chars] itself, and the arguments after it are consumed as
    the key/value pairs of the element: the call has the outcome of
    [Element] on the remaining arguments followed by [Chars] on the
    first.  This holds in both variants. *)
Theorem Element_leading_argument_is_the_content :
  (∀ element v kvs (b : Ordered.Builder),
     Nat.Even (length kvs) →
     Ordered.Element element (v :: kvs) b
     = (Ordered.Element element kvs;; Ordered.Chars [v]) b) ∧
  (∀ range element v kvs (b : Classic.Builder),
     Nat.Even (length kvs) →
     Classic.Element range element (v :: kvs) b
     = (Classic.Element range element kvs;; Classic.Chars range v) b).
Proof.
  split.
  - apply OrderedProofs.Element_leading_ordered.
  - apply ClassicProofs.Element_leading_classic.
Qed.

Lemma Element_leading_argument_witness :
  Ordered.Element "person" [VString "Hello!"; VString "name"; VString "Joran"] Ordered.New
  = (Ordered.Element "person" [VString "name"; VString "Joran"];;
     Ordered.Chars [VString "Hello!"]) Ordered.New.
Proof.
  apply (proj1 Element_leading_argument_is_the_content).
  by exists 1%nat.
Defined.

(** ** C9: the configuration mutators *)




(** ** C1: the order and the values of the attributes *)




(** ** C4: [Attr] with no pending element *)

(** C4, as stated, fails: with no element pending, [Attr] is not a no-op.
    It records the attribute, and the next element opened carries it, as
    the test [TestAttr] expects. *)
Lemma Attr_with_no_pending_element_is_kept :
  ¬ (∀ name v (b : Ordered.Builder),
       Ordered.buildingElement b = false → Ordered.Attr name v b = Ok tt b) ∧
  Ordered.writer (state_of
    ((Ordered.Attr "age" (VInt 40);;
      Ordered.Element "person" [VString "name"; VString "Joran"];;
      Ordered.End) Ordered.New))
  = "<person age=" +:+ quote +:+ "40" +:+ quote +:+
    " name=" +:+ quote +:+ "Joran" +:+ quote +:+ " />" +:+ nl ∧
  Classic.writer (state_of
    ((Classic.Attr "age" (VInt 40);;
      Classic.Element map_to_list "person" [];;
      Classic.End map_to_list) Classic.New))
  = "<person age=" +:+ quote +:+ "40" +:+ quote +:+ " />" +:+ nl.
Proof.
  split; [|split; by vm_compute].
  intros H. specialize (H "age" (VInt 40) Ordered.New eq_refl).
  vm_compute in H. discriminate H.
Qed.

(** C4 (amended). In every state [Attr] returns, writes nothing to the
    sink and changes nothing but the attribute buffer, where it stores the
    value under the name (appending the name to the order when it is new).
    The state after every sequence of calls on a new builder holds a
    buffer of bindings [pre].  With no element pending, the next element
    opened with [Element] carries the attribute: its start tag holds the
    bindings of the buffer, then the one of [Attr], then the pairs
    [Element] keeps, merged by the rule of first position and last value
    and written as in C1; the name of [Attr] is among them, with the value
    of [Attr] unless a pair of [Element] gives the name again, and first
    when the buffer was empty.  In the variant of builder.go the next
    element writes the entries of the map with [Attr]'s entry and then its
    own pairs stored in it, those with a non-empty name and value, in the
    order of the map iteration. *)
Theorem Attr_with_no_pending_element :
  (∀ (b : Ordered.Builder) name v,
     Ordered.Attr name v b
     = Ok tt (Ordered.set_attributes (<[name := s [v]]> (Ordered.attributes b))
                (Ordered.set_attrnames
                   (if bool_decide (is_Some (Ordered.attributes b !! name))
                    then Ordered.attrnames b
                    else Ordered.attrnames b ++ [name]) b))) ∧
  (∀ cs, ∃ pre, Ordered.buffer_of pre (state_of (Ordered.run cs Ordered.New))) ∧
  (∀ (b : Ordered.Builder) pre name v element pairs,
     Ordered.buildingElement b = false → Ordered.buffer_of pre b →
     Ordered.sane b →
     let bs := pre ++ (name, s [v]) :: Ordered.effective pairs in
     let written := Ordered.merged bs in
     let block := bool_decide (Ordered.inline b = 0) in
     let ind :=
       Ordered.indentation
         (Ordered.set_elements (Ordered.elements b ++ [element]) b) in
     (∃ b', (Ordered.Attr name v;;
             Ordered.Element element (Ordered.flat_pairs pairs);;
             Ordered.Flush) b = Ok tt b' ∧
            Ordered.writer b' =
              Ordered.writer b +:+ (if block then ind else "") +:+
              "<" +:+ element +:+
              foldr (λ p acc, " " +:+ p.1 +:+ "=" +:+ quote +:+ attrEscaper p.2 +:+
                              quote +:+ acc) "" written +:+
              ">" +:+ (if block then nl else "")) ∧
     name ∈ written.*1 ∧
     (name ∉ (Ordered.effective pairs).*1 → (name, s [v]) ∈ written) ∧
     (pre = [] → ∃ w rest, written = (name, w) :: rest) ∧
     NoDup written.*1 ∧
     (∀ n, n ∈ written.*1 ↔ n ∈ bs.*1) ∧
     (∀ n m, [n; m] `sublist_of` written.*1 →
             ∃ l1 l2, bs.*1 = l1 ++ n :: l2 ∧ (n ∉ l1) ∧ (m ∉ l1) ∧ m ∈ l2) ∧
     (∀ n w, (n, w) ∈ written →
             ∃ l1 l2, bs = l1 ++ (n, w) :: l2 ∧ n ∉ l2.*1)) ∧
  (∀ range (c : Classic.Builder) name v element pairs,
     Classic.range_visits_all range →
     Classic.buildingElement c = false →
     Classic.pretty c = false ∨ Classic.sane c →
     let stored :=
       Classic.set_pairs pairs (<[name := Classic.s v]> (Classic.attributes c)) in
     let written := filter Classic.shown (range stored) in
     Classic.Attr name v c
     = Ok tt (Classic.set_attributes
                (<[name := Classic.s v]> (Classic.attributes c)) c) ∧
     (∃ b', (Classic.Attr name v;;
             Classic.Element range element (Ordered.flat_pairs pairs);;
             Classic.End range) c = Ok tt b' ∧
            Classic.writer b' =
              Classic.writer c +:+
              Classic.indentation
                (Classic.set_elements (Classic.elements c ++ [element]) c) +:+
              "<" +:+ element +:+
              foldr (λ p acc, " " +:+ p.1 +:+ "=" +:+ quote +:+ attrEscaper p.2 +:+
                              quote +:+ acc) "" written +:+
              " />" +:+ (if Classic.pretty c then nl else "")) ∧
     NoDup written ∧
     ((∀ p, p ∈ pairs → Classic.s p.1 ≠ name) →
      ((name, Classic.s v) ∈ written ↔ name ≠ "" ∧ Classic.s v ≠ "")) ∧
     (∀ k w, (k, w) ∈ written ↔
             stored !! k = Some w ∧ k ≠ "" ∧ w ≠ "")).
Proof.
  split; [|split; [|split]].
  - intros b name v. unfold Ordered.Attr, bind, get, modify, ret.
    cbv beta iota. case_bool_decide; OrderedProofs.setters; [|done].
    by destruct b.
  - intros cs. apply OrderedMore.well_formed_buffer.
    apply OrderedMore.run_well_formed. by apply OrderedMore.well_formed_reset.
  - intros b pre name v element pairs Hb Hpre Hsane bs written block ind.
    split; [|split; [|split; [|split]]].
    + destruct (OrderedMore.Attr_then_element b pre name v element pairs
                  Hb Hpre Hsane) as (b' & Hrun & Hw).
      exists b'. split; [exact Hrun|]. rewrite Hw.
      by rewrite OrderedMore.render_pairs_literal.
    + apply OrderedMore.merged_carries.
    + apply OrderedMore.merged_carries.
    + intros ->. apply (OrderedMore.merged_carries [] name (s [v])).
    + apply OrderedProofs.merged_rule.
  - intros range c name v element pairs Hr Hb Hcan stored written.
    pose proof (ClassicProofs.shown_entries range stored Hr) as [Hnd Hin].
    split; [done|]. split; [|split; [done|split; [|done]]].
    + destruct (ClassicMore.classic_Attr_carried range c name v element pairs
                  Hb Hcan) as (b' & Hrun & Hw).
      exists b'. split; [exact Hrun|]. rewrite Hw.
      by rewrite ClassicProofs.render_entries_filter,
                 ClassicMore.render_all_literal.
    + intros Hother. subst written stored.
      rewrite Hin, (ClassicMore.set_pairs_other pairs _ name Hother).
      rewrite lookup_insert_eq. naive_solver.
Qed.

Lemma Attr_with_no_pending_element_witness :
  (∃ b', (Ordered.Attr "age" (VInt 40);;
          Ordered.Element "person" [VString "name"; VString "Joran"];;
          Ordered.Flush) Ordered.New = Ok tt b' ∧
         Ordered.writer b' =
           "<person age=" +:+ quote +:+ "40" +:+ quote +:+
           " name=" +:+ quote +:+ "Joran" +:+ quote +:+ ">" +:+ nl) ∧
  (∃ b', (Classic.Attr "age" (VInt 40);;
          Classic.Element map_to_list "person" [];;
          Classic.End map_to_list) Classic.New = Ok tt b' ∧
         Classic.writer b' =
           "<person age=" +:+ quote +:+ "40" +:+ quote +:+ " />" +:+ nl).
Proof.
  destruct Attr_with_no_pending_element as (_ & _ & Hordered & Hclassic).
  split.
  - destruct (Hordered Ordered.New [] "age" (VInt 40) "person"
                [(VString "name", VString "Joran")] eq_refl
                (OrderedProofs.buffer_of_nil Ordered.New eq_refl eq_refl))
      as [(b' & Hrun & Hw) _].
    + unfold Ordered.sane. vm_compute. repeat split; congruence.
    + exists b'. split; [exact Hrun|]. rewrite Hw. vm_compute. reflexivity.
  - destruct (Hclassic map_to_list Classic.New "age" (VInt 40) "person" [])
      as (_ & (b' & Hrun & Hw) & _).
    + by intros m.
    + reflexivity.
    + right. unfold Classic.sane. vm_compute. repeat split; congruence.
    + exists b'. split; [exact Hrun|]. rewrite Hw. vm_compute. reflexivity.
Defined.

(** ** C5: the indentation *)




(** ** C7: [Chars] *)



(** ** C10: attributes with an empty name or value *)

(** C10. In the variant of builder.go the flush of a pending start tag
    writes the entries of the attribute map whose name and value are both
    non-empty, each once, as a space, the name, an equals sign and the
    escaped value between double quotes, and no other entry.  In the
    order-preserving variant the test is made by [Element] on its
    key/value pairs: a pair is kept when its name is not empty and its
    value is not empty or is the sentinel [Blank], which is then written
    with an empty value between the quotes; an attribute added by a direct
    [Attr] call is written whatever its name and value. *)
Theorem empty_attributes_are_omitted :
  (∀ range (b : Classic.Builder) es name close newline,
     Classic.range_visits_all range →
     Classic.buildingElement b = true → Classic.elements b = es ++ [name] →
     Classic.pretty b = false ∨ Classic.can_indent b →
     let written := filter Classic.shown (range (Classic.attributes b)) in
     (∃ b', Classic.outputElement range close newline b = Ok tt b' ∧
            Classic.writer b' =
              Classic.writer b +:+ Classic.indentation b +:+ "<" +:+ name +:+
              foldr (λ p acc, " " +:+ p.1 +:+ "=" +:+ quote +:+ attrEscaper p.2 +:+
                              quote +:+ acc) "" written +:+
              (if close then " />" else ">") +:+ (if newline then nl else "")) ∧
     NoDup written ∧
     ∀ k v, (k, v) ∈ written ↔
            Classic.attributes b !! k = Some v ∧ k ≠ "" ∧ v ≠ "") ∧
  (∀ k v, Ordered.keeps k v = true ↔ s [k] ≠ "" ∧ (s [v] ≠ "" ∨ v = VBlank)) ∧
  (∀ (b : Ordered.Builder) element,
     Ordered.buildingElement b = false →
     Ordered.attributes b = ∅ → Ordered.attrnames b = [] →
     Ordered.sane b →
     let block := bool_decide (Ordered.inline b = 0) in
     let ind :=
       Ordered.indentation
         (Ordered.set_elements (Ordered.elements b ++ [element]) b) in
     let tag attrs :=
       Ordered.writer b +:+ (if block then ind else "") +:+
       "<" +:+ element +:+ attrs +:+ ">" +:+ (if block then nl else "") in
     (∀ pairs,
        Ordered.effective pairs
        = Ordered.supplied (filter (λ p, Ordered.keeps p.1 p.2 = true) pairs) ∧
        ∃ b', (Ordered.Element element (Ordered.flat_pairs pairs);;
               Ordered.Flush) b = Ok tt b' ∧
              Ordered.writer b' =
                tag (foldr (λ p acc, " " +:+ p.1 +:+ "=" +:+ quote +:+
                                     attrEscaper p.2 +:+ quote +:+ acc) ""
                       (Ordered.merged (Ordered.effective pairs)))) ∧
     (∀ k, s [k] ≠ "" →
        ∃ b', (Ordered.Element element [k; VBlank];; Ordered.Flush) b = Ok tt b' ∧
              Ordered.writer b' = tag (" " +:+ s [k] +:+ "=" +:+ quote +:+ quote)) ∧
     (∀ k, ∃ b', (Ordered.Element element [k; VString ""];; Ordered.Flush) b
                 = Ok tt b' ∧
                 Ordered.writer b' = tag "") ∧
     (∀ name v,
        ∃ b', (Ordered.Element element [];; Ordered.Attr name v;;
               Ordered.Flush) b = Ok tt b' ∧
              Ordered.writer b' =
                tag (" " +:+ name +:+ "=" +:+ quote +:+ attrEscaper (s [v]) +:+
                     quote))).
Proof.
  split; [|split].
  - intros range b es name close newline Hr Hb He Hi written. split.
    + rewrite (ClassicProofs.classic_outputElement_pending range close newline
                 b es name Hb He Hi).
      eexists. split; [done|]. cbn [Classic.writer].
      unfold Classic.start_tag.
      by rewrite ClassicProofs.render_entries_filter,
                 ClassicMore.render_all_literal.
    + by apply ClassicProofs.shown_entries.
  - apply OrderedProofs.keeps_spec.
  - intros b element Hb Hm Hl Hsane block ind tag.
    assert (∀ pairs calls,
              ∃ b', (Ordered.Element element (Ordered.flat_pairs pairs);;
                     Ordered.attr_calls calls;; Ordered.Flush) b = Ok tt b' ∧
                    Ordered.writer b' =
                      tag (Ordered.render_pairs
                             (Ordered.merged (Ordered.effective pairs ++
                                              Ordered.bindings calls)))) as Hgen.
    { intros pairs calls.
      pose proof (OrderedProofs.element_bindings b [] element pairs calls Hb
                    (OrderedProofs.buffer_of_nil b Hm Hl) Hsane) as H.
      cbn zeta in H. rewrite app_nil_l in H. rewrite H.
      eexists. split; [done|]. done. }
    split; [|split; [|split]].
    + intros pairs. split; [apply OrderedProofs.effective_spec|].
      destruct (Hgen pairs []) as (b' & H & Hw).
      unfold Ordered.bindings in Hw. rewrite fmap_nil, app_nil_r in Hw.
      rewrite OrderedMore.render_pairs_literal in Hw.
      cbn [Ordered.attr_calls] in H. unfold bind in H |- *. unfold ret in H at 1.
      destruct (Ordered.Element element (Ordered.flat_pairs pairs) b) as [[] b2|];
        [|done].
      eauto.
    + intros k Hk. destruct (Hgen [(k, VBlank)] []) as (b' & H & Hw).
      unfold Ordered.bindings in Hw. rewrite fmap_nil, app_nil_r in Hw.
      cbn [Ordered.attr_calls Ordered.flat_pairs Ordered.effective] in H, Hw.
      rewrite (proj2 (OrderedProofs.keeps_spec k VBlank)) in Hw by eauto.
      unfold bind in H |- *. unfold ret in H at 1.
      destruct (Ordered.Element element [k; VBlank] b) as [[] b2|]; [|done].
      exists b'. split; [done|]. rewrite Hw. f_equal.
      unfold Ordered.merged. cbn [app fmap list_fmap fst Ordered.first_seen].
      rewrite filter_nil. cbn [list_fmap Ordered.last_value].
      rewrite decide_True by done. cbn [default from_option Ordered.render_pairs].
      unfold Ordered.render_attr.
      change (s [VBlank]) with "". change (attrEscaper "") with "".
      by rewrite !string_app_nil_r, ?string_app_nil_l, ?string_app_assoc.
    + intros k. destruct (Hgen [(k, VString "")] []) as (b' & H & Hw).
      unfold Ordered.bindings in Hw. rewrite fmap_nil, app_nil_r in Hw.
      cbn [Ordered.attr_calls Ordered.flat_pairs Ordered.effective] in H, Hw.
      assert (Ordered.keeps k (VString "") = false) as Hk.
      { unfold Ordered.keeps. rewrite s_string.
        rewrite (bool_decide_eq_false_2 ("" ≠ "")) by naive_solver.
        rewrite (bool_decide_eq_false_2 (VString "" = VBlank)) by done.
        by rewrite andb_false_r. }
      rewrite Hk in Hw.
      unfold bind in H |- *. unfold ret in H at 1.
      destruct (Ordered.Element element [k; VString ""] b) as [[] b2|]; [|done].
      exists b'. split; [done|]. by rewrite Hw.
    + intros name v. destruct (Hgen [] [(name, v)]) as (b' & H & Hw).
      cbn [Ordered.attr_calls Ordered.flat_pairs Ordered.effective app] in H, Hw.
      unfold bind in H |- *. unfold ret in H at 1.
      destruct (Ordered.Element element [] b) as [[] b2|]; [|done].
      destruct (Ordered.Attr name v b2) as [[] b3|]; [|done].
      exists b'. split; [done|]. rewrite Hw. f_equal.
      unfold Ordered.merged, Ordered.bindings.
      cbn [app fmap list_fmap fst snd Ordered.first_seen].
      rewrite filter_nil. cbn [list_fmap Ordered.last_value].
      rewrite decide_True by done. cbn [default from_option Ordered.render_pairs].
      unfold Ordered.render_attr.
      by rewrite !string_app_nil_r, ?string_app_assoc.
Qed.

Lemma empty_attributes_are_omitted_witness :
  let pending :=
    state_of (Classic.Element map_to_list "a"
                [VString "k"; VString "v"; VString "e"; VString ""] Classic.New) in
  (∃ b', Classic.outputElement map_to_list true true pending = Ok tt b' ∧
         Classic.writer b' =
           "<a k=" +:+ quote +:+ "v" +:+ quote +:+ " />" +:+ nl) ∧
  (∃ b', (Ordered.Element "br" [VString "clear"; VBlank];; Ordered.Flush) Ordered.New
         = Ok tt b' ∧
         Ordered.writer b' = "<br clear=" +:+ quote +:+ quote +:+ ">" +:+ nl) ∧
  (∃ b', (Ordered.Element "br" [];; Ordered.Attr "clear" (VString "");;
          Ordered.Flush) Ordered.New = Ok tt b' ∧
         Ordered.writer b' = "<br clear=" +:+ quote +:+ quote +:+ ">" +:+ nl) ∧
  (∃ b', (Ordered.Element "br" [VString "clear"; VString ""];; Ordered.Flush)
           Ordered.New = Ok tt b' ∧
         Ordered.writer b' = "<br>" +:+ nl).
Proof.
  intros pending.
  assert (Ordered.sane Ordered.New) as Hsane
    by (unfold Ordered.sane; vm_compute; repeat split; congruence).
  destruct empty_attributes_are_omitted as (Hclassic & _ & Hordered).
  destruct (Hordered Ordered.New "br" eq_refl eq_refl eq_refl Hsane)
    as (Hpairs & Hblank & Hempty & Hattr).
  split; [|split; [|split]].
  - destruct (Hclassic map_to_list pending [] "a" true true) as [(b' & Hrun & Hw) _].
    + by intros m.
    + reflexivity.
    + reflexivity.
    + right. by vm_compute.
    + exists b'. split; [exact Hrun|]. rewrite Hw. by vm_compute.
  - destruct (Hblank (VString "clear") ltac:(done)) as (b' & Hrun & Hw).
    exists b'. split; [exact Hrun|]. rewrite Hw. by vm_compute.
  - destruct (Hattr "clear" (VString "")) as (b' & Hrun & Hw).
    exists b'. split; [exact Hrun|]. rewrite Hw. by vm_compute.
  - destruct (Hempty (VString "clear")) as (b' & Hrun & Hw).
    exists b'. split; [exact Hrun|]. rewrite Hw. by vm_compute.
Defined.

(** ** C3: nested inline regions *)

(** C3, as stated, fails on a builder whose inline depth is negative,
    which a caller reaches with an [EndInline] that has no [Inline]
    ([EndInline] only decrements).  From depth -1 the first [Inline] only
    brings the depth back to zero: entered once, the content is written in
    block mode; entered twice, on one line. *)
Lemma inline_nesting_fails_below_zero :
  let b := state_of (Ordered.EndInline Ordered.New) in
  let S := [Ordered.CElement "a" []; Ordered.CElement "b" [];
            Ordered.CEnd; Ordered.CEnd] in
  Ordered.EndInline Ordered.New = Ok tt b ∧ Ordered.inline b = -1 ∧
  Ordered.writer (state_of (Ordered.run
    ([Ordered.CInline; Ordered.CInline] ++ S ++
     [Ordered.CEndInline; Ordered.CEndInline]) b))
  ≠ Ordered.writer (state_of (Ordered.run
      ([Ordered.CInline] ++ S ++ [Ordered.CEndInline]) b)) ∧
  Ordered.inline (state_of (Ordered.run
    ([Ordered.CInline; Ordered.CInline] ++ S ++ [Ordered.CEndInline]) b)) = 0.
Proof. vm_compute. repeat split; congruence. Qed.

(** C3 (amended). Take a builder whose inline depth is not negative (and
    at least three below the largest [int]) and a sequence [S] of calls
    none of which is a bare [Inline] or [EndInline].  Entering twice and
    leaving twice around [S] writes the same bytes as entering once and
    leaving once, returns or panics alike, and when it returns the final
    builders are equal.  After entering twice, running [S] and leaving
    once, the sink and the builder are what they are after entering once
    and running [S]: the inline depth is positive, no line feed has been
    written, block formatting has not resumed. *)
Theorem inline_nesting_composes (b : Ordered.Builder) (S : list Ordered.call) :
  0 ≤ Ordered.inline b → Ordered.inline b + 3 ≤ maxInt →
  forallb Ordered.content_call S = true →
  let twice :=
    Ordered.run ([Ordered.CInline; Ordered.CInline] ++ S ++
                 [Ordered.CEndInline; Ordered.CEndInline]) b in
  let once :=
    Ordered.run ([Ordered.CInline] ++ S ++ [Ordered.CEndInline]) b in
  let twice_left_once :=
    Ordered.run ([Ordered.CInline; Ordered.CInline] ++ S ++
                 [Ordered.CEndInline]) b in
  let entered := Ordered.run ([Ordered.CInline] ++ S) b in
  (Ordered.writer (state_of twice) = Ordered.writer (state_of once) ∧
   returned twice = returned once ∧
   (returned once = true → twice = once)) ∧
  (Ordered.writer (state_of twice_left_once) = Ordered.writer (state_of entered) ∧
   returned twice_left_once = returned entered ∧
   (returned entered = true →
    twice_left_once = entered ∧ 0 < Ordered.inline (state_of twice_left_once))).
Proof.
  intros Hlo Hhi HS. cbn zeta. cbn [app].
  pose proof (OrderedProofs.nested_region b S Hlo Hhi HS) as H.
  rewrite !(OrderedProofs.run_cons Ordered.CInline). cbn [Ordered.exec].
  destruct (Ordered.Inline b) as [[] b1|msg b1]; [|done].
  destruct (H b1 eq_refl) as (Hb1 & Hin & Hrun & Hend). clear H.
  rewrite !(OrderedProofs.run_cons Ordered.CInline). cbn [Ordered.exec].
  rewrite Hin, !OrderedProofs.run_app. unfold bind. rewrite Hrun.
  destruct (Ordered.run S b1) as [[] b2|msg b2]; cbn [Ordered.rmap].
  - destruct (Hend b2 eq_refl) as [Hd He].
    rewrite !(OrderedProofs.run_cons Ordered.CEndInline). cbn [Ordered.exec].
    rewrite He, !OrderedProofs.run_nil. cbn [state_of returned].
    repeat split; try done. lia.
  - cbn [state_of returned]. repeat split; done.
Qed.

Lemma inline_nesting_composes_witness :
  let S := [Ordered.CElement "li" []; Ordered.CChars [VString "Hello "];
            Ordered.CTag "b" [VString "there"]; Ordered.CEnd] in
  Ordered.run ([Ordered.CInline; Ordered.CInline] ++ S ++
               [Ordered.CEndInline; Ordered.CEndInline]) Ordered.New
  = Ordered.run ([Ordered.CInline] ++ S ++ [Ordered.CEndInline]) Ordered.New.
Proof.
  intros S.
  refine (proj2 (proj2 (proj1 (inline_nesting_composes Ordered.New S _ _ _))) _).
  - done.
  - by vm_compute.
  - reflexivity.
  - by vm_compute.
Defined.

End Claims.
